(** * The 15-puzzle of [src/components/puzzle-game.tsx]

    A shallow embedding of the game logic of the [PuzzleGame] component:
    the solvability test, the Fisher-Yates shuffle, the construction of a
    new game, the click handler, the win-check effect, and the session
    state they act on; then the display of the time, the dark-mode toggle
    and the list of tiles the component renders.  JavaScript numbers that hold integers are [Z];
    arrays are lists read with [!!] and written with [<[ i := x ]>];
    the results of [Math.random()] are the rationals that the binary64
    numbers of the interval [0, 1) denote, and the product of line 125 is
    rounded the way binary64 arithmetic rounds it. *)

From Stdlib Require Import ZArith QArith Qround Qpower Qabs Lia Lqa.
From Stdlib Require Import SpecFloat.
From Stdlib Require Import Ascii String.
From stdpp Require Import base decidable option list strings pretty.

Close Scope Q_scope.
Close Scope Z_scope.
Close Scope string_scope.
Open Scope nat_scope.

(** ** Data model (lines 9 to 21 of the source) *)

Record Position := mkPosition { row : Z; col : Z }.

Record Tile := mkTile { id : Z; value : Z; position : Position }.

Definition GRID_SIZE : Z := 4.
Definition EMPTY_TILE_VALUE : Z := 0.

Global Instance Position_eq_dec : EqDecision Position.
Proof. solve_decision. Defined.

Global Instance Tile_eq_dec : EqDecision Tile.
Proof. solve_decision. Defined.

(** The state of the component: one field per [useState] hook that the
    game logic reads or writes ([isDarkMode] only drives the styling). *)
Record Session := mkSession {
  tiles : list Tile;
  isWon : bool;
  moveCount : Z;
  time : Z;
  isRunning : bool
}.

(** ** [isSolvable] (lines 96 to 120) *)

(** [a[i] > a[j]]: a comparison with [undefined] is false in JavaScript. *)
Definition js_gt (a : list Z) (i j : nat) : bool :=
  match a !! i, a !! j with
  | Some x, Some y => (y <? x)%Z
  | _, _ => false
  end.

(** The inner loop [for (let j = i + 1; j < a.length; j++)]. *)
Definition inversions_inner (a : list Z) (i : nat) (inversions : Z) : Z :=
  fold_left (fun inv j => if js_gt a i j then (inv + 1)%Z else inv)
            (seq (i + 1) (length a - (i + 1))) inversions.

(** The outer loop [for (let i = 0; i < a.length; i++)]. *)
Definition count_inversions (a : list Z) : Z :=
  fold_left (fun inv i => inversions_inner a i inv) (seq 0 (length a)) 0%Z.

(** [Array.prototype.indexOf]: the first index holding [x], or [-1]. *)
Fixpoint indexOf_from (values : list Z) (x : Z) (i : Z) : Z :=
  match values with
  | [] => (-1)%Z
  | v :: rest => if (v =? x)%Z then i else indexOf_from rest x (i + 1)%Z
  end.

Definition indexOf (values : list Z) (x : Z) : Z := indexOf_from values x 0%Z.

(** The quantities [isSolvable] computes, under the names it gives them.
    [Math.floor (a / b)] on integers with [b > 0] is [Z.div]; [%] is the
    truncating remainder [Z.rem]. *)
Definition valuesWithoutEmpty (values : list Z) : list Z :=
  filter (fun val => val ≠ EMPTY_TILE_VALUE) values.

Definition emptyRowFromBottom (values : list Z) : Z :=
  let emptyIndex := indexOf values EMPTY_TILE_VALUE in
  let emptyRow := (emptyIndex / GRID_SIZE)%Z in
  (GRID_SIZE - emptyRow)%Z.

Definition isSolvable (values : list Z) : bool :=
  let inversions := count_inversions (valuesWithoutEmpty values) in
  let emptyRowFromBottom := emptyRowFromBottom values in
  ((Z.rem emptyRowFromBottom 2 =? 0)%Z && (Z.rem inversions 2 =? 1)%Z)
  || ((Z.rem emptyRowFromBottom 2 =? 1)%Z && (Z.rem inversions 2 =? 0)%Z).

(** ** [shuffleArray] (lines 123 to 128) *)

(** The numbers of JavaScript are the binary64 numbers of IEEE 754; a
    finite one is [m * 2 ^ e] with [|m| < 2 ^ 53] and [-1074 <= e <= 971]. *)
Definition pow2 (e : Z) : Q := Qpower 2 e.

Definition is_double (q : Q) : Prop :=
  ∃ m e : Z, (Z.abs m < 2 ^ 53)%Z ∧ (-1074 <= e <= 971)%Z
             ∧ (q == inject_Z m * pow2 e)%Q.

(** The nearest integer, the even one of the two when [q] lies half way. *)
Definition round_half_even (q : Q) : Z :=
  let f := Qfloor q in
  match Qcompare (q - inject_Z f) (1 # 2) with
  | Lt => f
  | Gt => (f + 1)%Z
  | Eq => if Z.even f then f else (f + 1)%Z
  end.

(** For [0 < q], the integer [d] with [2 ^ d <= q < 2 ^ (d + 1)]: the
    difference of the bit lengths of numerator and denominator, or one
    less. *)
Definition floor_log2 (q : Q) : Z :=
  let d := (Z.log2 (Qnum q) - Z.log2 (Zpos (Qden q)))%Z in
  if Qle_bool (pow2 d) q then d else (d - 1)%Z.

(** The exponent of the last of the 53 bits of the significand that holds
    [x], for [0 < x]; it is [-1074] for the subnormal numbers. *)
Definition double_exponent (x : Q) : Z := Z.max (floor_log2 x - 52) (-1074).

(** The binary64 number nearest to [q], with an even significand when [q]
    lies half way between two of them: the result of an arithmetic
    operation whose exact result is [q].  Magnitudes from [2 ^ 1024] on,
    which round to an infinity, are out of the reach of the products of
    line 125. *)
Definition round_double (q : Q) : Q :=
  if (Qnum q =? 0)%Z then 0%Q
  else
    let a := Qabs q in
    let e := double_exponent a in
    let m := round_half_even (a / pow2 e) in
    ((if (Qnum q <? 0)%Z then - inject_Z m else inject_Z m) * pow2 e)%Q.

(** [Math.floor (Math.random () * (i + 1))] for a draw [r]: [i + 1] is an
    integer below [2 ^ 32], which the addition gives exactly, and the
    product of two numbers is the binary64 number nearest to their exact
    product. *)
Definition random_index (r : Q) (i : nat) : Z :=
  Qfloor (round_double (r * inject_Z (Z.of_nat i + 1))).

(** [[array[i], array[j]] = [array[j], array[i]]]: both reads happen
    before the two writes, [array[i]] is written first.  An index outside
    the array cannot occur when the draw is a binary64 number of [0, 1)
    and the array has no more than [2 ^ 53] entries (lemma
    [random_index_range]); the last branch leaves the array as it is. *)
Definition swap_step (array : list Z) (i : nat) (j : Z) : list Z :=
  match array !! Z.to_nat j, array !! i with
  | Some aj, Some ai =>
      if (0 <=? j)%Z then <[Z.to_nat j := ai]> (<[i := aj]> array) else array
  | _, _ => array
  end.

(** The loop [for (let i = array.length - 1; i > 0; i--)]; [k] counts the
    calls made to [Math.random] so far and [rnd k] is the result of call
    number [k]. *)
Fixpoint shuffle_loop (rnd : nat → Q) (k : nat) (array : list Z) (i : nat)
  : list Z * nat :=
  match i with
  | O => (array, k)
  | S i' => shuffle_loop rnd (S k) (swap_step array i (random_index (rnd k) i)) i'
  end.

Definition shuffleArray (rnd : nat → Q) (k : nat) (array : list Z) : list Z * nat :=
  shuffle_loop rnd k array (length array - 1).

(** ** [initializeGame] (lines 69 to 93) *)

(** [Array.from({ length: GRID_SIZE * GRID_SIZE }, (_, i) => i)]. *)
Definition initial_values : list Z := seqZ 0 (GRID_SIZE * GRID_SIZE).

(** [do { shuffleArray(values) } while (!isSolvable(values))]: the array is
    shuffled in place, so every round starts from the result of the one
    before.  [fuel] bounds the number of rounds; [None] is a loop still
    running when the fuel is spent. *)
Fixpoint shuffle_until_solvable (fuel : nat) (rnd : nat → Q) (k : nat)
    (values : list Z) : option (list Z * nat) :=
  match fuel with
  | O => None
  | S fuel' =>
      let '(values', k') := shuffleArray rnd k values in
      if isSolvable values' then Some (values', k')
      else shuffle_until_solvable fuel' rnd k' values'
  end.

Definition tile_of_slot (i : nat) (v : Z) : Tile :=
  let row := (Z.of_nat i / GRID_SIZE)%Z in
  let col := Z.rem (Z.of_nat i) GRID_SIZE in
  {| id := Z.of_nat i; value := v; position := {| row := row; col := col |} |}.

(** The loop that pushes one tile per slot; [i < values.length] keeps the
    read [values[i]] inside the array. *)
Definition build_tiles (values : list Z) : list Tile :=
  fold_left (fun newTiles i =>
               match values !! i with
               | Some v => newTiles ++ [tile_of_slot i v]
               | None => newTiles
               end)
            (seq 0 (length values)) [].

Definition initializeGame (fuel : nat) (rnd : nat → Q) (k : nat)
  : option (Session * nat) :=
  match shuffle_until_solvable fuel rnd k initial_values with
  | None => None
  | Some (values, k') =>
      Some ({| tiles := build_tiles values; isWon := false; moveCount := 0%Z;
               time := 0%Z; isRunning := true |}, k')
  end.

(** ** [handleTileClick] (lines 131 to 161) *)

Definition isAdjacent (clicked empty : Position) : bool :=
  ((row clicked =? row empty)%Z && (Z.abs (col clicked - col empty) =? 1)%Z)
  || ((col clicked =? col empty)%Z && (Z.abs (row clicked - row empty) =? 1)%Z).

(** The function given to [prevTiles.map]. *)
Definition move_tile (clickedTile emptyTile tile : Tile) : Tile :=
  if (value tile =? value clickedTile)%Z then
    {| id := id tile; value := value tile; position := position emptyTile |}
  else if (value tile =? EMPTY_TILE_VALUE)%Z then
    {| id := id tile; value := value tile; position := position clickedTile |}
  else tile.

Definition findEmptyTile (ts : list Tile) : option Tile :=
  List.find (fun tile => (value tile =? EMPTY_TILE_VALUE)%Z) ts.

Definition handleTileClick (s : Session) (clickedTile : Tile) : Session :=
  if isWon s then s
  else
    match findEmptyTile (tiles s) with
    | None => s
    | Some emptyTile =>
        if isAdjacent (position clickedTile) (position emptyTile) then
          {| tiles := map (move_tile clickedTile emptyTile) (tiles s);
             isWon := isWon s;
             moveCount := (moveCount s + 1)%Z;
             time := time s;
             isRunning := if negb (isRunning s) then true else isRunning s |}
        else s
    end.

(** ** The win check (lines 50 to 66) *)

Definition tile_in_place (tile : Tile) : bool :=
  if (value tile =? EMPTY_TILE_VALUE)%Z then
    (row (position tile) =? GRID_SIZE - 1)%Z && (col (position tile) =? GRID_SIZE - 1)%Z
  else
    let expectedRow := ((value tile - 1) / GRID_SIZE)%Z in
    let expectedCol := Z.rem (value tile - 1) GRID_SIZE in
    (row (position tile) =? expectedRow)%Z && (col (position tile) =? expectedCol)%Z.

Definition hasWon (ts : list Tile) : bool := forallb tile_in_place ts.

(** The effect with dependencies [tiles, isWon, moveCount]. *)
Definition winCheckEffect (s : Session) : Session :=
  if (length (tiles s) =? 0)%nat then s
  else if hasWon (tiles s) && negb (isWon s) && (0 <? moveCount s)%Z then
    {| tiles := tiles s; isWon := true; moveCount := moveCount s;
       time := time s; isRunning := false |}
  else s.

(** ** The other handlers *)

(** The [onClick] of the "Reset Timer" button (lines 192 to 197). *)
Definition resetTimer (s : Session) : Session :=
  {| tiles := tiles s; isWon := false; moveCount := 0%Z; time := 0%Z;
     isRunning := true |}.

(** One firing of the interval of the timer effect (lines 37 to 47), which
    is only installed while [isRunning && !isWon]. *)
Definition timerTick (s : Session) : Session :=
  if isRunning s && negb (isWon s) then
    {| tiles := tiles s; isWon := isWon s; moveCount := moveCount s;
       time := (time s + 1)%Z; isRunning := isRunning s |}
  else s.

(** ** Sessions as a transition system

    What the user and the clock can do to a mounted component.  A click
    reaches [handleTileClick] only through the [onClick] of a rendered
    tile, that is a tile of the current board whose value is not the empty
    one (line 226).  After the handler the component renders again and the
    win check runs; it depends on none of the fields [timerTick] changes. *)
Inductive Event :=
  | EvNewGame (fuel : nat) (rnd : nat → Q)
  | EvClick (clickedTile : Tile)
  | EvResetTimer
  | EvTick.

Definition dispatch (s : Session) (e : Event) : option Session :=
  match e with
  | EvNewGame fuel rnd =>
      match initializeGame fuel rnd 0 with
      | Some (s', _) => Some (winCheckEffect s')
      | None => None
      end
  | EvClick clickedTile =>
      if bool_decide (clickedTile ∈ tiles s)
         && negb (value clickedTile =? EMPTY_TILE_VALUE)%Z
      then Some (winCheckEffect (handleTileClick s clickedTile))
      else None
  | EvResetTimer => Some (winCheckEffect (resetTimer s))
  | EvTick => Some (timerTick s)
  end.

(** [Math.random] returns a number of the interval [0, 1). *)
Definition unit_draws (rnd : nat → Q) : Prop :=
  ∀ k, (0 <= rnd k)%Q ∧ (rnd k < 1)%Q.

(** The numbers it returns are binary64 numbers. *)
Definition double_draws (rnd : nat → Q) : Prop := ∀ k, is_double (rnd k).

(** The states of a mounted component: the mount effect (lines 32 to 34)
    starts a first game, then events follow one another. *)
Inductive reachable : Session → Prop :=
  | reachable_mount fuel rnd s k :
      unit_draws rnd →
      initializeGame fuel rnd 0 = Some (s, k) →
      reachable (winCheckEffect s)
  | reachable_step s e s' :
      reachable s →
      (∀ fuel rnd, e = EvNewGame fuel rnd → unit_draws rnd) →
      dispatch s e = Some s' →
      reachable s'.

(** ** Boards *)

(** The cell of linear index [i], in row-major order. *)
Definition cell_of_index (i : Z) : Position :=
  {| row := (i / GRID_SIZE)%Z; col := (i mod GRID_SIZE)%Z |}.

Definition all_cells : list Position :=
  cell_of_index <$> seqZ 0 (GRID_SIZE * GRID_SIZE).

(** The two bijections of a board, as equalities of multisets. *)
Definition board_inv (ts : list Tile) : Prop :=
  position <$> ts ≡ₚ all_cells ∧ value <$> ts ≡ₚ seqZ 0 (GRID_SIZE * GRID_SIZE).

(** The value held by a cell, and the row-major sequence of the values of
    a board; a cell that no tile occupies reads as [-1]. *)
Definition tileAt (ts : list Tile) (p : Position) : option Z :=
  value <$> List.find (fun tile => bool_decide (position tile = p)) ts.

Definition linearValues (ts : list Tile) : list Z :=
  (fun i => default (-1)%Z (tileAt ts (cell_of_index i)))
    <$> seqZ 0 (GRID_SIZE * GRID_SIZE).

Definition solved_values : list Z := [1;2;3;4;5;6;7;8;9;10;11;12;13;14;15;0]%Z.

(** ** Definitions used to state the properties *)

(** The pairs of indices [(i, j)] with [i < j] and [l[i] > l[j]]. *)
Definition inversion_at (l : list Z) (i j : nat) : bool :=
  bool_decide (i < j)
  && match l !! i, l !! j with
     | Some x, Some y => bool_decide (x > y)%Z
     | _, _ => false
     end.

Definition inversion_pairs (l : list Z) : list (nat * nat) :=
  List.filter (fun p => inversion_at l p.1 p.2)
              (list_prod (seq 0 (length l)) (seq 0 (length l))).

(** The sequence with the value 0 removed, and its number of inversions. *)
Definition without_zero (values : list Z) : list Z :=
  filter (fun v => v ≠ 0%Z) values.

Definition inversion_number (values : list Z) : Z :=
  Z.of_nat (length (inversion_pairs (without_zero values))).

(** The same count by recursion on the list: every entry counts the smaller
    entries that follow it. *)
Fixpoint inv_rec (l : list Z) : nat :=
  match l with
  | [] => 0
  | x :: rest => length (filter (fun y => (y < x)%Z) rest) + inv_rec rest
  end.

(** Number of entries of [l] below [x]. *)
Definition below (x : Z) (l : list Z) : nat :=
  length (filter (fun y => (y < x)%Z) l).

(** Adjacency of two cells: neighbours in a row or in a column. *)
Definition adjacent_cells (p q : Position) : Prop :=
  (row p = row q ∧ Z.abs (col p - col q) = 1%Z)
  ∨ (col p = col q ∧ Z.abs (row p - row q) = 1%Z).

(** The place of a tile in the solved configuration. *)
Definition canonical_position (v : Z) : Position :=
  if decide (v = 0%Z) then {| row := (GRID_SIZE - 1)%Z; col := (GRID_SIZE - 1)%Z |}
  else {| row := ((v - 1) / GRID_SIZE)%Z; col := ((v - 1) mod GRID_SIZE)%Z |}.

Definition in_canonical_place (tile : Tile) : Prop :=
  position tile = canonical_position (value tile).

(** The exchange of two cells, as a function on positions. *)
Definition exchange_cells (a b p : Position) : Position :=
  if decide (p = a) then b
  else if decide (p = b) then a
  else p.

(** What holds of the session after every render: the board is a board, and
    the won flag is set exactly when the board is solved after a move. *)
Definition session_inv (s : Session) : Prop :=
  board_inv (tiles s)
  ∧ (isWon s = true →
     (0 < moveCount s)%Z ∧ hasWon (tiles s) = true ∧ isRunning s = false)
  ∧ (hasWon (tiles s) = true → (0 < moveCount s)%Z → isWon s = true).

(** Sessions used as examples: the one a source of zero draws produces, whose
    board is the solved one; one whose board is one slide away from it; and
    the latter after that slide. *)
Definition solved_session : Session :=
  {| tiles := build_tiles solved_values; isWon := false; moveCount := 0%Z;
     time := 0%Z; isRunning := true |}.

Definition one_slide_draws : nat → Q :=
  fun k => match k with O => (15 # 16)%Q | _ => 0%Q end.

Definition one_slide_session : Session :=
  {| tiles := build_tiles [1;2;3;4;5;6;7;8;9;10;11;12;13;14;0;15]%Z;
     isWon := false; moveCount := 0%Z; time := 0%Z; isRunning := true |}.

Definition won_session : Session :=
  {| tiles := map (move_tile (tile_of_slot 15 15%Z) (tile_of_slot 14 0%Z))
                  (tiles one_slide_session);
     isWon := true; moveCount := 1%Z; time := 0%Z; isRunning := false |}.

(** The solved board with the tile 15 put on the first cell: one tile out of
    its place, and two tiles on one cell. *)
Definition misplaced_tile : Tile :=
  {| id := 14%Z; value := 15%Z; position := {| row := 0%Z; col := 0%Z |} |}.

Definition misplaced_board : list Tile :=
  <[14 := misplaced_tile]> (build_tiles solved_values).

(** ** The clock, the legal moves, chosen draws *)

(** What holds of the counters after every render. *)
Definition clock_inv (s : Session) : Prop :=
  isRunning s = negb (isWon s) ∧ (0 <= moveCount s)%Z ∧ (0 <= time s)%Z.

(** The tiles of a board whose click moves something. *)
Definition movable_tiles (ts : list Tile) : list Tile :=
  match findEmptyTile ts with
  | Some emptyTile =>
      filter (fun tile => isAdjacent (position tile) (position emptyTile) = true) ts
  | None => []
  end.

(** A draw that picks index [j] at step [i] of the shuffle: the least
    multiple of [2 ^ - k] that is no less than [j / (i + 1)], where [2 ^ k]
    is the least power of two above [i + 1]. *)
Definition draw_for (i j : nat) : Q :=
  let n := (Z.of_nat i + 1)%Z in
  let k := (Z.log2 n + 1)%Z in
  (inject_Z ((Z.of_nat j * 2 ^ k + n - 1) / n) * pow2 (- k))%Q.

(** The multiplication of binary64 numbers as the standard library
    specifies it for IEEE 754 arithmetic, on two positive numbers
    [m1 * 2 ^ e1] and [m2 * 2 ^ e2], and the rational its result denotes. *)
Definition binary64_value (x : spec_float) : option Q :=
  match x with
  | S754_zero _ => Some 0%Q
  | S754_finite s m e =>
      Some ((if s then - inject_Z (Zpos m) else inject_Z (Zpos m)) * pow2 e)%Q
  | _ => None
  end.

Definition binary64_mul (m1 : positive) (e1 : Z) (m2 : positive) (e2 : Z)
  : option Q :=
  binary64_value (SFmul 53 1024 (S754_finite false m1 e1) (S754_finite false m2 e2)).

(** Whether [round_double] gives the product of [m * 2 ^ e] by the integer
    [n] that the library's multiplication gives. *)
Definition round_double_agrees (t : positive * Z * positive) : bool :=
  let '(m, e, n) := t in
  match binary64_mul m e n 0 with
  | Some q =>
      Qeq_bool q (round_double (inject_Z (Zpos m) * pow2 e * inject_Z (Zpos n)))
  | None => false
  end.

(** ** [formatTime] (lines 164 to 168) *)

(** [s.repeat(n)]. *)
Fixpoint string_repeat (s : string) (n : nat) : string :=
  match n with
  | O => EmptyString
  | S n' => String.append s (string_repeat s n')
  end.

(** [s.padStart(targetLength, padString)]: nothing is added to a string
    that is long enough, nor when the padding is empty; otherwise the
    padding is repeated and cut to the missing length. *)
Definition padStart (s : string) (targetLength : nat) (padString : string) : string :=
  let len := String.length s in
  if targetLength <=? len then s
  else if String.length padString =? 0 then s
  else
    let fillLen := targetLength - len in
    String.append (substring 0 fillLen (string_repeat padString fillLen)) s.

(** [Number.MAX_SAFE_INTEGER]: up to it a number holds an integer exactly. *)
Definition MAX_SAFE_INTEGER : Z := (2 ^ 53 - 1)%Z.

(** [n.toString()] for a number that holds an integer (of less than 22
    digits, where the exponent notation starts): its decimal digits, after a
    minus sign when it is negative. *)
Definition toString (n : Z) : string := pretty n.

Definition formatTime (seconds : Z) : string :=
  let mins := (seconds / 60)%Z in
  let secs := Z.rem seconds 60 in
  String.append (padStart (toString mins) 2 "0")
    (String.append ":" (padStart (toString secs) 2 "0")).

(** The two digits of a number below 100. *)
Definition two_digits (n : Z) : string :=
  String (pretty_N_char (Z.to_N (n / 10)))
    (String (pretty_N_char (Z.to_N (n mod 10))) EmptyString).

(** ** [toggleDarkMode] (lines 171 to 174) *)

(** The [isDarkMode] hook and the class list of the root element of the
    document, an ordered set of tokens. *)
Record Theme := mkTheme { isDarkMode : bool; classList : list string }.

(** [classList.toggle(token)]: the token is removed when present and added
    at the end when absent. *)
Definition classList_toggle (token : string) (l : list string) : list string :=
  if bool_decide (token ∈ l) then filter (fun t => t ≠ token) l
  else l ++ [token].

Definition toggleDarkMode (t : Theme) : Theme :=
  {| isDarkMode := negb (isDarkMode t);
     classList := classList_toggle "dark" (classList t) |}.

(** The icon shows the theme of the page. *)
Definition theme_in_sync (t : Theme) : Prop :=
  isDarkMode t = true ↔ "dark"%string ∈ classList t.

(** ** The tiles on screen (lines 224 to 251) *)

(** What the component renders for a tile: the React key, the target of the
    animation, the number shown and the tile handed to [handleTileClick]. *)
Record TileView := mkTileView {
  key : Z;
  animate_x : string;
  animate_y : string;
  label : Z;
  onClick : Tile
}.

(** [tile.value !== EMPTY_TILE_VALUE && <motion.div ... />]: nothing is
    rendered for the empty tile. *)
Definition render_tile (tile : Tile) : option TileView :=
  if (value tile =? EMPTY_TILE_VALUE)%Z then None
  else Some {| key := id tile;
               animate_x := String.append (toString (col (position tile) * 100)) "%";
               animate_y := String.append (toString (row (position tile) * 100)) "%";
               label := value tile;
               onClick := tile |}.

Definition render_tiles (ts : list Tile) : list (option TileView) :=
  map render_tile ts.

(** The elements that reach the screen. *)
Definition visible_tiles (ts : list Tile) : list TileView :=
  omap render_tile ts.

(** * Properties *)

(** ** Evaluations on concrete inputs *)

Example isSolvable_solved :
  isSolvable [1;2;3;4;5;6;7;8;9;10;11;12;13;14;15;0]%Z = true.
Proof. reflexivity. Qed.

Example isSolvable_identity :
  isSolvable [0;1;2;3;4;5;6;7;8;9;10;11;12;13;14;15]%Z = false.
Proof. reflexivity. Qed.

Example isSolvable_one_slide :
  isSolvable [1;2;3;4;5;6;7;8;9;10;11;12;13;14;0;15]%Z = true.
Proof. reflexivity. Qed.

Example isSolvable_transposition :
  isSolvable [2;1;3;4;5;6;7;8;9;10;11;12;13;14;15;0]%Z = false.
Proof. reflexivity. Qed.

Example shuffleArray_zero_draws :
  shuffleArray (fun _ => 0%Q) 0 [0;1;2;3;4;5;6;7;8;9;10;11;12;13;14;15]%Z
  = ([1;2;3;4;5;6;7;8;9;10;11;12;13;14;15;0]%Z, 15).
Proof. vm_compute. reflexivity. Qed.

Example initializeGame_zero_draws :
  (λ r, (linearValues ∘ tiles ∘ fst) <$> r) (initializeGame 1 (fun _ => 0%Q) 0)
  = Some solved_values.
Proof. vm_compute. reflexivity. Qed.

(** ** Inversions: the loops of [isSolvable] count pairs *)

Lemma inner_loop_suffix (a : list Z) (i : nat) (x : Z) :
  a !! i = Some x →
  ∀ suf pre inv, a = pre ++ suf →
    fold_left (fun inv j => if js_gt a i j then (inv + 1)%Z else inv)
              (seq (length pre) (length suf)) inv
    = (inv + Z.of_nat (length (filter (fun y => (y < x)%Z) suf)))%Z.
Proof.
  intros Hi. induction suf as [|y suf IH]; intros pre inv Ha.
  - simpl. lia.
  - cbn [length seq fold_left].
    assert (Hy : a !! length pre = Some y).
    { subst a. rewrite lookup_app_r by lia. by rewrite Nat.sub_diag. }
    unfold js_gt at 2. rewrite Hi, Hy.
    specialize (IH (pre ++ [y])). rewrite length_app in IH. simpl in IH.
    rewrite Nat.add_1_r in IH. rewrite IH by (by rewrite <- app_assoc).
    rewrite filter_cons. destruct (Z.ltb_spec y x); case_decide; simpl; lia.
Qed.

Lemma inversions_inner_spec pre x suf inv :
  inversions_inner (pre ++ x :: suf) (length pre) inv
  = (inv + Z.of_nat (length (filter (fun y => (y < x)%Z) suf)))%Z.
Proof.
  unfold inversions_inner.
  assert (Hx : (pre ++ x :: suf) !! length pre = Some x).
  { rewrite lookup_app_r by lia. by rewrite Nat.sub_diag. }
  pose proof (inner_loop_suffix _ _ _ Hx suf (pre ++ [x]) inv) as H.
  rewrite !length_app in *. simpl in *.
  replace (length pre + S (length suf) - (length pre + 1)) with (length suf) by lia.
  apply H. by rewrite <- app_assoc.
Qed.

Lemma outer_loop_suffix suf : ∀ pre inv,
  fold_left (fun inv i => inversions_inner (pre ++ suf) i inv)
            (seq (length pre) (length suf)) inv
  = (inv + Z.of_nat (inv_rec suf))%Z.
Proof.
  induction suf as [|x suf IH]; intros pre inv.
  - simpl. lia.
  - cbn [length seq fold_left inv_rec]. rewrite inversions_inner_spec.
    specialize (IH (pre ++ [x])). rewrite length_app in IH. simpl in IH.
    rewrite Nat.add_1_r, <- app_assoc in IH. simpl in IH. rewrite IH. lia.
Qed.

Lemma count_inversions_rec a : count_inversions a = Z.of_nat (inv_rec a).
Proof. unfold count_inversions. apply (outer_loop_suffix a [] 0%Z). Qed.

Lemma filter_list_prod_length {A B} (P : A * B → bool) (l1 : list A) (l2 : list B) :
  length (List.filter P (list_prod l1 l2))
  = sum_list ((fun a => length (List.filter (fun b => P (a, b)) l2)) <$> l1).
Proof.
  induction l1 as [|a l1 IH]; [done|].
  cbn [list_prod fmap list_fmap sum_list]. rewrite List.filter_app, length_app, IH.
  f_equal. clear. induction l2 as [|b l2 IH]; [done|].
  simpl. destruct (P (a, b)); simpl; by rewrite IH.
Qed.

Lemma inversions_of_row_above (l : list Z) (i : nat) :
  ∀ n m, m + n ≤ S i →
    List.filter (inversion_at l i) (seq m n) = [].
Proof.
  induction n as [|n IH]; intros m Hm; [done|].
  simpl. unfold inversion_at at 1. rewrite bool_decide_eq_false_2 by lia.
  simpl. apply IH. lia.
Qed.

Lemma inversions_of_row_below (l : list Z) (i : nat) (x : Z) :
  l !! i = Some x →
  ∀ suf pre, l = pre ++ suf → i < length pre →
    length (List.filter (inversion_at l i) (seq (length pre) (length suf)))
    = length (filter (fun y => (y < x)%Z) suf).
Proof.
  intros Hi. induction suf as [|y suf IH]; intros pre Hl Hlt; [done|].
  cbn [length seq List.filter].
  assert (Hy : l !! length pre = Some y).
  { subst l. rewrite lookup_app_r by lia. by rewrite Nat.sub_diag. }
  specialize (IH (pre ++ [y])). rewrite length_app in IH. simpl in IH.
  rewrite Nat.add_1_r in IH.
  unfold inversion_at at 1. rewrite Hi, Hy, bool_decide_eq_true_2 by lia.
  rewrite filter_cons. simpl.
  repeat case_bool_decide; case_decide; simpl; try lia;
    rewrite IH; try lia; by rewrite <- ?app_assoc.
Qed.

Lemma inversions_of_row pre x suf :
  length (List.filter (inversion_at (pre ++ x :: suf) (length pre))
                      (seq 0 (length (pre ++ x :: suf))))
  = length (filter (fun y => (y < x)%Z) suf).
Proof.
  rewrite length_app. simpl.
  replace (length pre + S (length suf)) with (S (length pre) + length suf) by lia.
  rewrite seq_app, List.filter_app, length_app.
  rewrite inversions_of_row_above by lia. simpl.
  assert (Hx : (pre ++ x :: suf) !! length pre = Some x).
  { rewrite lookup_app_r by lia. by rewrite Nat.sub_diag. }
  pose proof (inversions_of_row_below _ _ _ Hx suf (pre ++ [x])) as H.
  rewrite length_app in H. simpl in H. rewrite Nat.add_1_r in H.
  apply H; [by rewrite <- app_assoc | lia].
Qed.

Lemma inversion_rows_suffix suf : ∀ pre,
  sum_list ((fun i => length (List.filter (inversion_at (pre ++ suf) i)
                                          (seq 0 (length (pre ++ suf)))))
              <$> seq (length pre) (length suf))
  = inv_rec suf.
Proof.
  induction suf as [|x suf IH]; intros pre; [done|].
  cbn [length seq fmap list_fmap sum_list inv_rec].
  rewrite inversions_of_row. f_equal.
  specialize (IH (pre ++ [x])).
  replace (length (pre ++ [x])) with (S (length pre)) in IH
    by (rewrite length_app; simpl; lia).
  rewrite <- app_assoc in IH. exact IH.
Qed.

Lemma inversion_pairs_rec l : length (inversion_pairs l) = inv_rec l.
Proof.
  unfold inversion_pairs. rewrite filter_list_prod_length.
  apply (inversion_rows_suffix l []).
Qed.

Lemma rem2_even x : Z.rem x 2 = 0%Z ↔ Z.Even x.
Proof.
  split.
  - intros H. exists (Z.quot x 2). pose proof (Z.quot_rem' x 2). lia.
  - intros [m ->]. rewrite Z.mul_comm. apply Z.rem_mul. lia.
Qed.

Lemma rem2_odd x : (0 <= x)%Z → Z.rem x 2 = 1%Z ↔ Z.Odd x.
Proof.
  intros Hx. rewrite Z.rem_mod_nonneg by lia. split.
  - intros H. exists (x / 2)%Z. Z.div_mod_to_equations. lia.
  - intros [m ->]. Z.div_mod_to_equations. lia.
Qed.

Lemma indexOf_from_lookup values x : ∀ e i,
  NoDup values → values !! e = Some x →
  indexOf_from values x i = (i + Z.of_nat e)%Z.
Proof.
  induction values as [|v values IH]; intros e i Hnd He; [done|].
  apply NoDup_cons in Hnd as [Hv Hnd]. simpl. destruct e as [|e]; simpl in He.
  - injection He as ->. rewrite Z.eqb_refl. lia.
  - destruct (Z.eqb_spec v x) as [->|_].
    + exfalso. apply Hv. eapply list_elem_of_lookup_2. exact He.
    + rewrite (IH e) by done. lia.
Qed.

Lemma indexOf_lookup values x e :
  NoDup values → values !! e = Some x → indexOf values x = Z.of_nat e.
Proof. intros. unfold indexOf. by rewrite (indexOf_from_lookup _ _ e). Qed.

(** C1. On a sequence of 16 distinct values of [0, 15], [isSolvable] answers
    true exactly when the parity rule holds: with [inversions] the number of
    pairs [i < j] of the sequence without its 0 whose entries are out of
    order, and [emptyRowFromBottom] equal to 4 minus the quotient by 4 of the
    index of 0, either [emptyRowFromBottom] is even and [inversions] is odd,
    or [emptyRowFromBottom] is odd and [inversions] is even. *)
Theorem isSolvable_parity_rule (values : list Z) (e : nat) :
  NoDup values →
  length values = Z.to_nat (GRID_SIZE * GRID_SIZE) →
  (∀ v, v ∈ values → (0 <= v < GRID_SIZE * GRID_SIZE)%Z) →
  values !! e = Some 0%Z →
  let inversions := inversion_number values in
  let emptyRowFromBottom := (GRID_SIZE - Z.of_nat e / GRID_SIZE)%Z in
  isSolvable values = true
  ↔ (Z.Even emptyRowFromBottom ∧ Z.Odd inversions)
    ∨ (Z.Odd emptyRowFromBottom ∧ Z.Even inversions).
Proof.
  intros Hnd Hlen _ He inversions erfb.
  unfold isSolvable, emptyRowFromBottom, EMPTY_TILE_VALUE.
  rewrite (indexOf_lookup values 0%Z e) by done.
  rewrite count_inversions_rec, <- inversion_pairs_rec.
  change (Z.of_nat (length (inversion_pairs (valuesWithoutEmpty values))))
    with inversions.
  change (GRID_SIZE - Z.of_nat e / GRID_SIZE)%Z with erfb.
  assert (0 <= inversions)%Z by (unfold inversions, inversion_number; lia).
  assert (0 <= erfb)%Z.
  { apply lookup_lt_Some in He. unfold erfb, GRID_SIZE in *.
    Z.div_mod_to_equations. lia. }
  rewrite orb_true_iff, !andb_true_iff, !Z.eqb_eq.
  by rewrite !rem2_even, !rem2_odd.
Qed.

Lemma isSolvable_parity_rule_witness :
  isSolvable solved_values = true
  ↔ (Z.Even (GRID_SIZE - Z.of_nat 15 / GRID_SIZE)
     ∧ Z.Odd (inversion_number solved_values))
    ∨ (Z.Odd (GRID_SIZE - Z.of_nat 15 / GRID_SIZE)
       ∧ Z.Even (inversion_number solved_values)).
Proof.
  apply (isSolvable_parity_rule solved_values 15).
  - apply (bool_decide_unpack _). vm_compute. exact I.
  - reflexivity.
  - apply Forall_forall. apply (bool_decide_unpack _). vm_compute. exact I.
  - reflexivity.
Defined.

(** ** The shuffle *)

Lemma Qfloor_interval (x : Q) (j : Z) :
  Qfloor x = j ↔ (inject_Z j <= x)%Q ∧ (x < inject_Z (j + 1))%Q.
Proof.
  split.
  - intros <-. split; [apply Qfloor_le | apply Qlt_floor].
  - intros [Hlo Hhi].
    pose proof (Qfloor_le x) as Hfl. pose proof (Qlt_floor x) as Hfu.
    assert (Qfloor x < j + 1)%Z.
    { rewrite Zlt_Qlt. eapply Qle_lt_trans; eauto. }
    assert (j < Qfloor x + 1)%Z.
    { rewrite Zlt_Qlt. eapply Qle_lt_trans; eauto. }
    lia.
Qed.

(** *** Rounding to binary64 *)

Lemma pow2_pos e : (0 < pow2 e)%Q.
Proof. apply Qpower_0_lt. reflexivity. Qed.

Lemma pow2_add a b : (pow2 (a + b) == pow2 a * pow2 b)%Q.
Proof. apply Qpower_plus. discriminate. Qed.

Lemma pow2_inject (n : Z) : (0 <= n)%Z → (pow2 n == inject_Z (2 ^ n))%Q.
Proof. intros Hn. unfold pow2. by rewrite (Zpower_Qpower 2 n Hn). Qed.

Lemma pow2_le a b : (a <= b)%Z → (pow2 a <= pow2 b)%Q.
Proof. intros H. apply Qpower_le_compat_l; [done|]. unfold Qle. simpl. lia. Qed.

Lemma pow2_lt_inv a b : (pow2 a < pow2 b)%Q → (a < b)%Z.
Proof.
  intros H. destruct (Z.lt_ge_cases a b) as [|Hge]; [done|].
  apply pow2_le in Hge. exfalso. apply (Qlt_irrefl (pow2 a)).
  eapply Qlt_le_trans; eauto.
Qed.

Lemma round_half_even_comp (p q : Q) : (p == q)%Q → round_half_even p = round_half_even q.
Proof.
  intros H. unfold round_half_even. rewrite (Qfloor_comp _ _ H).
  assert (E : (p - inject_Z (Qfloor q) == q - inject_Z (Qfloor q))%Q) by (by rewrite H).
  by rewrite (Qcompare_comp _ _ E _ _ (Qeq_refl (1 # 2))).
Qed.

Lemma round_half_even_Z (z : Z) : round_half_even (inject_Z z) = z.
Proof.
  unfold round_half_even. rewrite Qfloor_Z.
  assert (E : (inject_Z z - inject_Z z == 0)%Q) by ring.
  by rewrite (Qcompare_comp _ _ E _ _ (Qeq_refl (1 # 2))).
Qed.


Lemma floor_log2_le (q : Q) : (0 < q)%Q → (pow2 (floor_log2 q) <= q)%Q.
Proof.
  intros Hq. unfold floor_log2.
  destruct (Qle_bool _ q) eqn:E; [by apply Qle_bool_iff|].
  destruct q as [a b]. simpl Qnum. simpl Qden.
  assert (Ha : (0 < a)%Z) by (unfold Qlt in Hq; simpl in Hq; lia).
  pose proof (Z.log2_spec a Ha) as [Hla _].
  pose proof (Z.log2_spec (Zpos b) ltac:(lia)) as [_ Hlb].
  pose proof (Z.log2_nonneg a). pose proof (Z.log2_nonneg (Zpos b)).
  replace (Z.log2 a - Z.log2 (Z.pos b) - 1)%Z
    with (Z.log2 a + - (Z.succ (Z.log2 (Z.pos b))))%Z by lia.
  rewrite pow2_add. unfold pow2 at 2. rewrite Qpower_opp.
  fold (pow2 (Z.succ (Z.log2 (Z.pos b)))).
  rewrite !pow2_inject by lia.
  rewrite (Qmake_Qdiv a b).
  apply Qle_shift_div_l.
  { change 0%Q with (inject_Z 0). rewrite <- Zlt_Qlt. lia. }
  unfold Qdiv. rewrite <- Qmult_assoc, (Qmult_comm (/ _)), Qmult_assoc.
  apply Qle_shift_div_r.
  { change 0%Q with (inject_Z 0). rewrite <- Zlt_Qlt. lia. }
  rewrite <- !inject_Z_mult, <- Zle_Qle. nia.
Qed.

Lemma pow2_opp e : (pow2 (- e) == / pow2 e)%Q.
Proof. apply Qpower_opp. Qed.

Lemma pow2_cancel e : (pow2 (- e) * pow2 e == 1)%Q.
Proof.
  rewrite <- pow2_add. replace (- e + e)%Z with 0%Z by lia. reflexivity.
Qed.

Lemma round_double_zero (x : Q) : (x == 0)%Q → round_double x = 0%Q.
Proof.
  intros H. unfold round_double.
  assert (Qnum x = 0%Z) as ->; [|done].
  unfold Qeq in H. simpl in H. lia.
Qed.

Lemma round_double_pos (x : Q) :
  (0 < x)%Q →
  round_double x
  = (inject_Z (round_half_even (x / pow2 (double_exponent x)))
     * pow2 (double_exponent x))%Q.
Proof.
  intros Hx. destruct x as [a b].
  assert (Ha : (0 < a)%Z) by (unfold Qlt in Hx; simpl in Hx; lia).
  unfold round_double. simpl Qnum.
  destruct (Z.eqb_spec a 0); [lia|]. destruct (Z.ltb_spec a 0); [lia|].
  unfold Qabs. by rewrite (Z.abs_eq a) by lia.
Qed.



Lemma inject_Z_half_lt (a b : Z) :
  (inject_Z b < inject_Z a + (1 # 2))%Q → (b <= a)%Z.
Proof.
  intros H. assert (b < a + 1)%Z; [|lia].
  rewrite Zlt_Qlt. rewrite inject_Z_plus.
  change (inject_Z 1) with 1%Q.
  generalize dependent (inject_Z a). generalize (inject_Z b). intros; lra.
Qed.






Lemma pow2_53 : (pow2 53 == inject_Z (2 ^ 53))%Q.
Proof. by apply pow2_inject. Qed.



Lemma round_double_exact (x : Q) (m e : Z) :
  (0 <= m < 2 ^ 53)%Z → (-1074 <= e)%Z →
  (x == inject_Z m * pow2 e)%Q → (round_double x == x)%Q.
Proof.
  intros Hm He Hx.
  destruct (Z.eq_dec m 0%Z) as [->|Hm0].
  { rewrite round_double_zero; rewrite Hx; ring. }
  assert (Hpos : (0 < x)%Q).
  { rewrite Hx. apply Qmult_lt_0_compat; [|apply pow2_pos].
    change 0%Q with (inject_Z 0). rewrite <- Zlt_Qlt. lia. }
  rewrite (round_double_pos x Hpos).
  assert (Hde : (double_exponent x <= e)%Z).
  { pose proof (floor_log2_le x Hpos) as HE.
    assert (floor_log2 x < 53 + e)%Z; [|unfold double_exponent; lia].
    apply pow2_lt_inv. eapply Qle_lt_trans; [exact HE|].
    rewrite Hx, pow2_add, pow2_53.
    apply Qmult_lt_r; [apply pow2_pos|]. rewrite <- Zlt_Qlt. lia. }
  set (d := double_exponent x) in *.
  assert (Hy : (x / pow2 d == inject_Z (m * 2 ^ (e - d)))%Q).
  { rewrite Hx, inject_Z_mult, <- pow2_inject by lia.
    unfold Qdiv. rewrite <- pow2_opp, <- Qmult_assoc, <- pow2_add.
    by replace (e + - d)%Z with (e - d)%Z by lia. }
  rewrite (round_half_even_comp _ _ Hy), round_half_even_Z.
  rewrite Hx, inject_Z_mult, <- pow2_inject by lia.
  rewrite <- Qmult_assoc, <- pow2_add.
  by replace (e - d + d)%Z with e by lia.
Qed.

(** *** The index drawn *)







Lemma Qdiv_lt_mult (a r n : Q) : (0 < n)%Q → (r < a / n)%Q ↔ (r * n < a)%Q.
Proof.
  intros Hn. split; intros H.
  - apply (Qmult_lt_r _ _ _ Hn) in H.
    rewrite (Qmult_comm (a / n)), Qmult_div_r in H; [done|].
    intros E. rewrite E in Hn. by apply Qlt_irrefl in Hn.
  - by apply Qlt_shift_div_l.
Qed.



Lemma draw_for_numerator (i j : nat) :
  j ≤ i →
  let n := (Z.of_nat i + 1)%Z in
  let k := (Z.log2 n + 1)%Z in
  let c := ((Z.of_nat j * 2 ^ k + n - 1) / n)%Z in
  (0 <= c < 2 ^ k)%Z ∧ (Z.of_nat j * 2 ^ k <= c * n < (Z.of_nat j + 1) * 2 ^ k)%Z.
Proof.
  intros Hj n k c.
  assert (Hn : (0 < n)%Z) by (unfold n; lia).
  destruct (Z.log2_spec n Hn) as [_ Hk]. fold (Z.succ (Z.log2 n)) in k.
  fold k in Hk.
  assert (H2 : (0 < 2 ^ k)%Z) by (apply Z.pow_pos_nonneg; unfold k; pose proof (Z.log2_nonneg n); lia).
  pose proof (Z.div_mod (Z.of_nat j * 2 ^ k + n - 1) n ltac:(lia)) as Hdm.
  pose proof (Z.mod_pos_bound (Z.of_nat j * 2 ^ k + n - 1) n Hn) as Hmod.
  fold c in Hdm.
  assert (Hjn : (Z.of_nat j <= n - 1)%Z) by (unfold n; lia).
  split; [split|split]; nia.
Qed.

Lemma draw_for_unit (i j : nat) :
  j ≤ i → (0 <= draw_for i j)%Q ∧ (draw_for i j < 1)%Q.
Proof.
  intros Hj. destruct (draw_for_numerator i j Hj) as [[Hc0 Hc] _].
  unfold draw_for.
  set (k := (Z.log2 (Z.of_nat i + 1) + 1)%Z) in *.
  set (c := ((Z.of_nat j * 2 ^ k + (Z.of_nat i + 1) - 1) / (Z.of_nat i + 1))%Z) in *.
  assert (Hk : (0 <= k)%Z) by (unfold k; pose proof (Z.log2_nonneg (Z.of_nat i + 1)); lia).
  split.
  - apply Qmult_le_0_compat; [|apply Qlt_le_weak, pow2_pos].
    change 0%Q with (inject_Z 0). by rewrite <- Zle_Qle.
  - apply Qlt_le_trans with (inject_Z (2 ^ k) * pow2 (- k))%Q.
    + apply Qmult_lt_r; [apply pow2_pos|]. by rewrite <- Zlt_Qlt.
    + rewrite <- pow2_inject, (Qmult_comm (pow2 k)), pow2_cancel by done.
      apply Qle_refl.
Qed.

Lemma draw_for_double (i j : nat) :
  j ≤ i → (Z.of_nat i + 1 <= 2 ^ 26)%Z → is_double (draw_for i j).
Proof.
  intros Hj Hi. destruct (draw_for_numerator i j Hj) as [[Hc0 Hc] _].
  unfold draw_for.
  set (k := (Z.log2 (Z.of_nat i + 1) + 1)%Z) in *.
  set (c := ((Z.of_nat j * 2 ^ k + (Z.of_nat i + 1) - 1) / (Z.of_nat i + 1))%Z) in *.
  assert (Hk : (0 <= k <= 27)%Z).
  { unfold k. pose proof (Z.log2_nonneg (Z.of_nat i + 1)).
    pose proof (Z.log2_le_mono _ _ Hi) as Hl. rewrite Z.log2_pow2 in Hl by lia. lia. }
  exists c, (- k)%Z. split; [|split; [lia|reflexivity]].
  assert (2 ^ k <= 2 ^ 27)%Z by (apply Z.pow_le_mono_r; lia). lia.
Qed.

Lemma random_index_draw_for (i j : nat) :
  j ≤ i → (Z.of_nat i + 1 <= 2 ^ 26)%Z →
  random_index (draw_for i j) i = Z.of_nat j.
Proof.
  intros Hj Hi. destruct (draw_for_numerator i j Hj) as [[Hc0 Hc] [Hlo Hhi]].
  unfold random_index, draw_for.
  set (n := (Z.of_nat i + 1)%Z) in *.
  set (k := (Z.log2 n + 1)%Z) in *.
  set (c := ((Z.of_nat j * 2 ^ k + n - 1) / n)%Z) in *.
  assert (Hk : (0 <= k <= 27)%Z).
  { unfold k. pose proof (Z.log2_nonneg n).
    pose proof (Z.log2_le_mono _ _ Hi) as Hl. rewrite Z.log2_pow2 in Hl by lia. lia. }
  assert (H2k : (2 ^ k <= 2 ^ 27)%Z) by (apply Z.pow_le_mono_r; lia).
  assert (Hx : (inject_Z c * pow2 (- k) * inject_Z n == inject_Z (c * n) * pow2 (- k))%Q).
  { rewrite inject_Z_mult. ring. }
  assert (Hcn : (0 <= c * n < 2 ^ 53)%Z).
  { split; [nia|]. change (2 ^ 53)%Z with (2 ^ 27 * 2 ^ 26)%Z. nia. }
  rewrite (Qfloor_comp _ _ (round_double_exact _ (c * n) (- k) Hcn ltac:(lia) Hx)).
  rewrite (Qfloor_comp _ _ Hx).
  apply Qfloor_interval.
  assert (E : ∀ z : Z, (inject_Z z == inject_Z (z * 2 ^ k) * pow2 (- k))%Q).
  { intros z. rewrite inject_Z_mult, <- pow2_inject by lia.
    rewrite <- Qmult_assoc, (Qmult_comm (pow2 k)), pow2_cancel. ring. }
  rewrite (E (Z.of_nat j)), (E (Z.of_nat j + 1)%Z). split.
  - apply Qmult_le_compat_r; [|apply Qlt_le_weak, pow2_pos]. by rewrite <- Zle_Qle.
  - apply Qmult_lt_r; [apply pow2_pos|]. by rewrite <- Zlt_Qlt.
Qed.

(** *** The exchange and the loop *)



Lemma swap_step_perm (array : list Z) (i : nat) (j : Z) :
  swap_step array i j ≡ₚ array.
Proof.
  unfold swap_step.
  destruct (array !! Z.to_nat j) as [aj|] eqn:Haj; [|done].
  destruct (array !! i) as [ai|] eqn:Hai; [|done].
  destruct (0 <=? j)%Z; [|done].
  by apply Permutation_insert_swap.
Qed.

Lemma shuffle_loop_perm (rnd : nat → Q) (i : nat) : ∀ k array,
  (shuffle_loop rnd k array i).1 ≡ₚ array
  ∧ (shuffle_loop rnd k array i).2 = k + i.
Proof.
  induction i as [|i IH]; intros k array; simpl.
  - split; [done|lia].
  - destruct (IH (S k) (swap_step array (S i) (random_index (rnd k) (S i))))
      as [Hp Hk].
    split; [|lia]. rewrite Hp. apply swap_step_perm.
Qed.

Lemma shuffleArray_perm rnd k array : (shuffleArray rnd k array).1 ≡ₚ array.
Proof. apply shuffle_loop_perm. Qed.






Lemma zero_draws_unit : unit_draws (fun _ => 0%Q).
Proof. intros k. split; [unfold Qle | unfold Qlt]; simpl; lia. Qed.

Lemma zero_draws_double : double_draws (fun _ => 0%Q).
Proof. intros k. exists 0%Z, 0%Z. split; [done|]. split; [lia|reflexivity]. Qed.


(** Zero draws rotate the array: every step exchanges its entry with the
    first one. *)
Example shuffleArray_rotates :
  shuffleArray (fun _ => 0%Q) 0 [10; 20; 30]%Z = ([20; 30; 10]%Z, 2).
Proof. vm_compute. reflexivity. Qed.

(** The last index is among the choices: a draw of 15/16 picks [j = i] at
    every step of a shuffle of 16 entries. *)
Example random_index_last :
  random_index (15 # 16)%Q 15 = 15%Z ∧ random_index (15 # 16)%Q 1 = 1%Z.
Proof. split; vm_compute; reflexivity. Qed.

(** A draw below 4/7 whose product by 7 rounds to 4: the index is 4, where
    the floor of the exact product is 3. *)
Example random_index_tie :
  (2573485501354569 # 4503599627370496 < 4 # 7)%Q
  ∧ random_index (2573485501354569 # 4503599627370496)%Q 6 = 4%Z
  ∧ Qfloor ((2573485501354569 # 4503599627370496) * inject_Z 7) = 3%Z.
Proof. split; [|split]; vm_compute; reflexivity. Qed.

(** [round_double] gives the products that the multiplication of the
    IEEE 754 specification of the standard library gives: on the draw
    above, on the largest number below 1, on numbers that need rounding,
    on subnormal numbers and on the largest array length. *)
Example round_double_binary64 :
  forallb round_double_agrees
    [ (2573485501354569%positive, (-52)%Z, 7%positive);
      (9007199254740991%positive, (-53)%Z, 16%positive);
      (9007199254740991%positive, (-53)%Z, 7%positive);
      (6004799503160661%positive, (-54)%Z, 3%positive);
      (1%positive, (-1074)%Z, 3%positive);
      (3%positive, (-1074)%Z, 5%positive);
      (4503599627370497%positive, (-1074)%Z, 3%positive);
      (7%positive, (-3)%Z, 9%positive);
      (9007199254740991%positive, (-53)%Z, 9007199254740991%positive);
      (9007199254740989%positive, (-60)%Z, 4294967295%positive) ] = true.
Proof. vm_compute. reflexivity. Qed.

(** ** New games *)

Lemma shuffle_until_solvable_Some fuel rnd : ∀ k values out k',
  shuffle_until_solvable fuel rnd k values = Some (out, k') →
  isSolvable out = true ∧ out ≡ₚ values.
Proof.
  induction fuel as [|fuel IH]; intros k values out k' H; [done|].
  simpl in H. pose proof (shuffleArray_perm rnd k values) as Hp.
  destruct (shuffleArray rnd k values) as [values1 k1]. simpl in Hp.
  destruct (isSolvable values1) eqn:Hs.
  - injection H as <- <-. done.
  - apply IH in H as [? ?]. split; [done|]. by etrans.
Qed.

Lemma sixteen_values (values : list Z) :
  length values = 16 →
  ∃ v0 v1 v2 v3 v4 v5 v6 v7 v8 v9 v10 v11 v12 v13 v14 v15,
    values = [v0;v1;v2;v3;v4;v5;v6;v7;v8;v9;v10;v11;v12;v13;v14;v15].
Proof.
  intros H.
  do 16 (destruct values as [|? values]; [discriminate H|]).
  destruct values; [|discriminate H].
  by repeat eexists.
Qed.

Lemma build_tiles_values (values : list Z) :
  length values = 16 → value <$> build_tiles values = values.
Proof.
  intros H. destruct (sixteen_values values H)
    as (v0&v1&v2&v3&v4&v5&v6&v7&v8&v9&v10&v11&v12&v13&v14&v15&->).
  reflexivity.
Qed.

Lemma build_tiles_positions (values : list Z) :
  length values = 16 → position <$> build_tiles values = all_cells.
Proof.
  intros H. destruct (sixteen_values values H)
    as (v0&v1&v2&v3&v4&v5&v6&v7&v8&v9&v10&v11&v12&v13&v14&v15&->).
  reflexivity.
Qed.

Lemma build_tiles_linear (values : list Z) :
  length values = 16 → linearValues (build_tiles values) = values.
Proof.
  intros H. destruct (sixteen_values values H)
    as (v0&v1&v2&v3&v4&v5&v6&v7&v8&v9&v10&v11&v12&v13&v14&v15&->).
  reflexivity.
Qed.

Lemma build_tiles_board_inv (values : list Z) :
  values ≡ₚ initial_values → board_inv (build_tiles values).
Proof.
  intros Hp.
  assert (Hlen : length values = 16) by (by rewrite (Permutation_length Hp)).
  split; [by rewrite build_tiles_positions | by rewrite build_tiles_values].
Qed.

Lemma solved_board_inv : board_inv (tiles solved_session).
Proof.
  apply build_tiles_board_inv. symmetry.
  apply (Permutation_cons_append [1;2;3;4;5;6;7;8;9;10;11;12;13;14;15]%Z 0%Z).
Qed.

Lemma initializeGame_Some fuel rnd k s k' :
  initializeGame fuel rnd k = Some (s, k') →
  ∃ values, shuffle_until_solvable fuel rnd k initial_values = Some (values, k')
            ∧ isSolvable values = true
            ∧ values ≡ₚ initial_values
            ∧ s = {| tiles := build_tiles values; isWon := false;
                     moveCount := 0%Z; time := 0%Z; isRunning := true |}.
Proof.
  unfold initializeGame. intros H.
  destruct (shuffle_until_solvable fuel rnd k initial_values) as [[values k1]|] eqn:E;
    [|done].
  injection H as <- <-. exists values.
  destruct (shuffle_until_solvable_Some _ _ _ _ _ _ E) as [Hs Hp].
  by repeat split.
Qed.

Lemma initializeGame_linear_solvable fuel rnd k s k' :
  initializeGame fuel rnd k = Some (s, k') →
  isSolvable (linearValues (tiles s)) = true.
Proof.
  intros H. apply initializeGame_Some in H as (values & _ & Hs & Hp & ->).
  simpl. rewrite build_tiles_linear; [done|].
  by rewrite (Permutation_length Hp).
Qed.

(** C2. Every board that [initializeGame] returns is solvable: whatever the
    draws of the random source and wherever the loop stops, the tiles of
    the new session form a board, one tile on every cell and every value
    of 0, ..., 15 once, laid out in row-major order; the row-major sequence
    of its values is the array the loop was left with, a rearrangement of
    0, ..., 15, and [isSolvable] holds of it, since the loop is only left
    once [isSolvable] has accepted the array. *)
Theorem initializeGame_solvable fuel rnd k s k' :
  unit_draws rnd →
  initializeGame fuel rnd k = Some (s, k') →
  board_inv (tiles s)
  ∧ position <$> tiles s = all_cells
  ∧ linearValues (tiles s) = value <$> tiles s
  ∧ shuffle_until_solvable fuel rnd k initial_values
    = Some (linearValues (tiles s), k')
  ∧ linearValues (tiles s) ≡ₚ initial_values
  ∧ isSolvable (linearValues (tiles s)) = true.
Proof.
  intros _ H.
  destruct (initializeGame_Some _ _ _ _ _ H) as (values & Hloop & Hs & Hp & ->).
  cbn [tiles].
  assert (Hlen : length values = 16) by (by rewrite (Permutation_length Hp)).
  rewrite (build_tiles_linear values Hlen), (build_tiles_values values Hlen),
    (build_tiles_positions values Hlen).
  split; [by apply build_tiles_board_inv|]. by repeat split.
Qed.

Lemma initializeGame_zero_draws_session :
  initializeGame 1 (fun _ => 0%Q) 0 = Some (solved_session, 15).
Proof. vm_compute. reflexivity. Qed.

Lemma initializeGame_solvable_witness :
  board_inv (tiles solved_session)
  ∧ position <$> tiles solved_session = all_cells
  ∧ linearValues (tiles solved_session) = value <$> tiles solved_session
  ∧ shuffle_until_solvable 1 (fun _ => 0%Q) 0 initial_values
    = Some (linearValues (tiles solved_session), 15)
  ∧ linearValues (tiles solved_session) ≡ₚ initial_values
  ∧ isSolvable (linearValues (tiles solved_session)) = true.
Proof.
  apply (initializeGame_solvable 1 (fun _ => 0%Q) 0 solved_session 15).
  - intros k. split; [unfold Qle | unfold Qlt]; simpl; lia.
  - vm_compute. reflexivity.
Defined.

(** A random source on which the loop of [initializeGame] never ends. *)
Lemma initializeGame_diverges fuel :
  ∀ k, initializeGame fuel (fun _ => (15 # 16)%Q) k = None.
Proof.
  unfold initializeGame.
  assert (H : ∀ k, shuffle_until_solvable fuel (fun _ => (15 # 16)%Q) k initial_values = None);
    [|by intros k; rewrite H].
  induction fuel as [|fuel IH]; intros k; [done|].
  cbn [shuffle_until_solvable].
  assert (Hs : shuffleArray (fun _ => (15 # 16)%Q) k initial_values
               = (initial_values, 15 + k)) by (vm_compute; reflexivity).
  rewrite Hs.
  replace (isSolvable initial_values) with false by (vm_compute; reflexivity).
  apply IH.
Qed.

(** ** Boards and clicks *)

Lemma isAdjacent_spec p q : isAdjacent p q = true ↔ adjacent_cells p q.
Proof.
  unfold isAdjacent, adjacent_cells.
  by rewrite orb_true_iff, !andb_true_iff, !Z.eqb_eq.
Qed.

Lemma isAdjacent_sym p q : isAdjacent p q = isAdjacent q p.
Proof.
  unfold isAdjacent.
  rewrite (Z.eqb_sym (row p)), (Z.eqb_sym (col p)).
  replace (col q - col p)%Z with (- (col p - col q))%Z by lia.
  replace (row q - row p)%Z with (- (row p - row q))%Z by lia.
  by rewrite !Z.abs_opp.
Qed.

Lemma isAdjacent_same p q : p = q → isAdjacent p q = false.
Proof.
  intros ->. unfold isAdjacent. rewrite !Z.sub_diag. simpl.
  by rewrite !andb_false_r.
Qed.

Lemma fmap_NoDup_inj {A B} (f : A → B) (l : list A) (x y : A) :
  NoDup (f <$> l) → x ∈ l → y ∈ l → f x = f y → x = y.
Proof.
  intros Hnd [i Hi]%list_elem_of_lookup [j Hj]%list_elem_of_lookup Hf.
  assert (i = j) as ->; [|congruence].
  eapply NoDup_lookup; [exact Hnd| |].
  - rewrite list_lookup_fmap, Hi. done.
  - rewrite list_lookup_fmap, Hj. simpl. by rewrite Hf.
Qed.

Lemma NoDup_all_cells : NoDup all_cells.
Proof. apply (bool_decide_unpack _). vm_compute. exact I. Qed.

Lemma NoDup_all_values : NoDup (seqZ 0 (GRID_SIZE * GRID_SIZE)).
Proof. apply NoDup_seqZ. Qed.

Section Board.
Context (ts : list Tile) (Hinv : board_inv ts).

Lemma board_NoDup_values : NoDup (value <$> ts).
Proof. destruct Hinv as [_ ->]. apply NoDup_all_values. Qed.

Lemma board_NoDup_positions : NoDup (position <$> ts).
Proof. destruct Hinv as [-> _]. apply NoDup_all_cells. Qed.

Lemma board_length : length ts = 16.
Proof.
  destruct Hinv as [_ H]. apply Permutation_length in H.
  rewrite length_fmap in H. rewrite H. reflexivity.
Qed.

Lemma board_value_inj t1 t2 :
  t1 ∈ ts → t2 ∈ ts → value t1 = value t2 → t1 = t2.
Proof. apply fmap_NoDup_inj, board_NoDup_values. Qed.

Lemma board_position_inj t1 t2 :
  t1 ∈ ts → t2 ∈ ts → position t1 = position t2 → t1 = t2.
Proof. apply fmap_NoDup_inj, board_NoDup_positions. Qed.

Lemma board_has_value v :
  (0 <= v < GRID_SIZE * GRID_SIZE)%Z → ∃ t, t ∈ ts ∧ value t = v.
Proof.
  intros Hv. destruct Hinv as [_ H].
  assert (Hin : v ∈ value <$> ts).
  { rewrite H. apply elem_of_seqZ. lia. }
  apply list_elem_of_fmap in Hin as (t & -> & Ht). eauto.
Qed.

Lemma board_value_range t :
  t ∈ ts → (0 <= value t < GRID_SIZE * GRID_SIZE)%Z.
Proof.
  intros Ht. destruct Hinv as [_ H].
  assert (Hin : value t ∈ value <$> ts) by (by apply list_elem_of_fmap_2).
  rewrite H in Hin. apply elem_of_seqZ in Hin. lia.
Qed.

Lemma board_findEmptyTile t :
  findEmptyTile ts = Some t ↔ t ∈ ts ∧ value t = EMPTY_TILE_VALUE.
Proof.
  unfold findEmptyTile. split.
  - intros H. apply find_some in H as [Hin Hv].
    apply list_elem_of_In in Hin. apply Z.eqb_eq in Hv. done.
  - intros [Hin Hv].
    destruct (List.find (fun tile => (value tile =? EMPTY_TILE_VALUE)%Z) ts)
      as [t'|] eqn:E.
    + apply find_some in E as [Hin' Hv'].
      apply list_elem_of_In in Hin'. apply Z.eqb_eq in Hv'.
      f_equal. apply board_value_inj; congruence.
    + apply list_elem_of_In in Hin.
      pose proof (find_none _ _ E t Hin) as Hn. simpl in Hn.
      apply Z.eqb_neq in Hn. done.
Qed.

Lemma board_has_empty : ∃ t, findEmptyTile ts = Some t.
Proof.
  destruct (board_has_value 0%Z) as (t & Ht & Hv); [done|].
  exists t. by apply board_findEmptyTile.
Qed.
End Board.

(** C4. The click handler takes the clicked tile to be next to the empty
    cell exactly when the two are neighbours in a row or in a column.  When
    they are not, the click changes nothing in the session: same board, same
    move count.  That covers a tile in another row and another column
    (diagonal neighbours among them) and, on a board, the tile of value 0
    itself, which sits on the empty cell. *)
Theorem handleTileClick_not_adjacent (s : Session) (clickedTile emptyTile : Tile) :
  findEmptyTile (tiles s) = Some emptyTile →
  (isAdjacent (position clickedTile) (position emptyTile) = true
   ↔ adjacent_cells (position clickedTile) (position emptyTile))
  ∧ (¬ adjacent_cells (position clickedTile) (position emptyTile) →
     handleTileClick s clickedTile = s)
  ∧ (row (position clickedTile) ≠ row (position emptyTile) →
     col (position clickedTile) ≠ col (position emptyTile) →
     handleTileClick s clickedTile = s)
  ∧ (board_inv (tiles s) → clickedTile ∈ tiles s →
     value clickedTile = EMPTY_TILE_VALUE →
     position clickedTile = position emptyTile
     ∧ handleTileClick s clickedTile = s).
Proof.
  intros He. split; [apply isAdjacent_spec|].
  assert (Hno : isAdjacent (position clickedTile) (position emptyTile) = false →
                handleTileClick s clickedTile = s).
  { intros Hadj. unfold handleTileClick. rewrite He, Hadj. by destruct (isWon s). }
  split; [|split].
  - intros Hadj. apply Hno. apply not_true_is_false. by rewrite isAdjacent_spec.
  - intros Hr Hc. apply Hno. apply not_true_is_false. rewrite isAdjacent_spec.
    unfold adjacent_cells. tauto.
  - intros Hinv Hin Hv.
    apply (board_findEmptyTile _ Hinv) in He as [? ?].
    assert (clickedTile = emptyTile) as ->.
    { apply (board_value_inj _ Hinv); [done|done|congruence]. }
    split; [done|]. by apply Hno, isAdjacent_same.
Qed.

Lemma handleTileClick_not_adjacent_witness :
  handleTileClick solved_session (tile_of_slot 10 11%Z) = solved_session.
Proof.
  refine (proj1 (proj2 (proj2 (handleTileClick_not_adjacent
            solved_session (tile_of_slot 10 11%Z) (tile_of_slot 15 0%Z) _))) _ _).
  - reflexivity.
  - vm_compute. discriminate.
  - vm_compute. discriminate.
Defined.

Lemma exchange_cells_involutive a b p :
  exchange_cells a b (exchange_cells a b p) = p.
Proof. unfold exchange_cells. repeat case_decide; congruence. Qed.

Section Move.
Context (ts : list Tile) (Hinv : board_inv ts).
Context (c e : Tile) (Hc : c ∈ ts) (He : e ∈ ts).
Context (Hev : value e = EMPTY_TILE_VALUE).
Context (Hadj : isAdjacent (position c) (position e) = true).

Lemma clicked_not_empty : value c ≠ EMPTY_TILE_VALUE.
Proof.
  intros Hv. assert (c = e) as Hce.
  { apply (board_value_inj _ Hinv); [done|done|congruence]. }
  rewrite Hce, isAdjacent_same in Hadj; done.
Qed.

Lemma clicked_position_ne : position c ≠ position e.
Proof. intros Hp. rewrite isAdjacent_same in Hadj; done. Qed.

Lemma move_tile_board t :
  t ∈ ts →
  move_tile c e t
  = if decide (t = c) then
      {| id := id t; value := value t; position := position e |}
    else if decide (t = e) then
      {| id := id t; value := value t; position := position c |}
    else t.
Proof.
  intros Ht. unfold move_tile.
  destruct (Z.eqb_spec (value t) (value c)) as [Hv|Hv].
  - rewrite decide_True; [done|]. by apply (board_value_inj _ Hinv).
  - rewrite decide_False by congruence.
    destruct (Z.eqb_spec (value t) EMPTY_TILE_VALUE) as [Hv0|Hv0].
    + rewrite decide_True; [done|].
      apply (board_value_inj _ Hinv); [done|done|congruence].
    + rewrite decide_False by congruence. done.
Qed.

Lemma move_tile_value t : value (move_tile c e t) = value t.
Proof. unfold move_tile. by repeat case_match. Qed.

Lemma move_tile_id t : id (move_tile c e t) = id t.
Proof. unfold move_tile. by repeat case_match. Qed.

Lemma move_tile_position t :
  t ∈ ts →
  position (move_tile c e t)
  = exchange_cells (position c) (position e) (position t).
Proof.
  intros Ht. rewrite move_tile_board by done. unfold exchange_cells.
  pose proof clicked_position_ne.
  destruct (decide (t = c)) as [->|Hn].
  - by rewrite decide_True.
  - rewrite (decide_False (P := position t = position c)).
    2:{ intros Hp. apply Hn. by apply (board_position_inj _ Hinv). }
    destruct (decide (t = e)) as [->|Hn'].
    + by rewrite decide_True.
    + rewrite decide_False; [done|].
      intros Hp. apply Hn'. by apply (board_position_inj _ Hinv).
Qed.

Lemma moved_values : value <$> (map (move_tile c e) ts) = value <$> ts.
Proof.
  change (map (move_tile c e) ts) with (move_tile c e <$> ts).
  rewrite <- list_fmap_compose. apply list_fmap_ext.
  intros i t _. apply move_tile_value.
Qed.

Lemma moved_positions :
  position <$> (map (move_tile c e) ts)
  = exchange_cells (position c) (position e) <$> (position <$> ts).
Proof.
  change (map (move_tile c e) ts) with (move_tile c e <$> ts).
  rewrite <- !list_fmap_compose. apply list_fmap_ext.
  intros i t Hi. simpl. apply move_tile_position.
  by eapply list_elem_of_lookup_2.
Qed.

Lemma exchange_perm :
  exchange_cells (position c) (position e) <$> (position <$> ts)
  ≡ₚ position <$> ts.
Proof.
  set (ex := exchange_cells (position c) (position e)).
  apply NoDup_Permutation.
  - apply NoDup_fmap_2_strong; [|by apply board_NoDup_positions].
    intros p q _ _ Hpq. apply (f_equal ex) in Hpq. unfold ex in Hpq.
    by rewrite !exchange_cells_involutive in Hpq.
  - by apply board_NoDup_positions.
  - assert (Hcl : ∀ p, p ∈ position <$> ts → ex p ∈ position <$> ts).
    { intros p Hp. unfold ex, exchange_cells. repeat case_decide;
        [by apply list_elem_of_fmap_2..|done]. }
    intros p. split.
    + intros (q & -> & Hq)%list_elem_of_fmap. by apply Hcl.
    + intros Hp. apply list_elem_of_fmap. exists (ex p).
      split; [by unfold ex; rewrite exchange_cells_involutive | by apply Hcl].
Qed.

Lemma moved_board_inv : board_inv (map (move_tile c e) ts).
Proof.
  destruct Hinv as [Hpos Hval]. split.
  - rewrite moved_positions, exchange_perm. done.
  - rewrite moved_values. done.
Qed.
End Move.

(** ** Moves *)

Lemma handleTileClick_moves s c e :
  isWon s = false →
  findEmptyTile (tiles s) = Some e →
  isAdjacent (position c) (position e) = true →
  handleTileClick s c
  = {| tiles := map (move_tile c e) (tiles s); isWon := false;
       moveCount := (moveCount s + 1)%Z; time := time s; isRunning := true |}.
Proof.
  intros Hw He Hadj. unfold handleTileClick. rewrite Hw, He, Hadj.
  by destruct (isRunning s).
Qed.

Lemma handleTileClick_cases s c :
  handleTileClick s c = s
  ∨ ∃ e, isWon s = false ∧ findEmptyTile (tiles s) = Some e
         ∧ isAdjacent (position c) (position e) = true
         ∧ handleTileClick s c
           = {| tiles := map (move_tile c e) (tiles s); isWon := false;
                moveCount := (moveCount s + 1)%Z; time := time s;
                isRunning := true |}.
Proof.
  destruct (isWon s) eqn:Hw; [left; unfold handleTileClick; by rewrite Hw|].
  destruct (findEmptyTile (tiles s)) as [e|] eqn:He;
    [|left; unfold handleTileClick; by rewrite Hw, He].
  destruct (isAdjacent (position c) (position e)) eqn:Hadj;
    [|left; unfold handleTileClick; by rewrite Hw, He, Hadj].
  right. exists e. repeat split; try done. by apply handleTileClick_moves.
Qed.

(** C5. In a session that is not won, a click on a tile of the board next to
    the empty cell gives the clicked tile the position of the empty tile and
    the empty tile the position of the clicked one; every other tile stays
    as it was, with its identity, its value and its position, and every
    tile stays at its index of the array.  The move count grows by exactly
    one and the clock runs. *)
Theorem handleTileClick_adjacent (s : Session) (clickedTile emptyTile : Tile) :
  board_inv (tiles s) →
  isWon s = false →
  clickedTile ∈ tiles s →
  emptyTile ∈ tiles s →
  value emptyTile = EMPTY_TILE_VALUE →
  adjacent_cells (position clickedTile) (position emptyTile) →
  let s' := handleTileClick s clickedTile in
  (∀ i tile, tiles s !! i = Some tile →
     tiles s' !! i
     = Some (if decide (tile = clickedTile) then
               {| id := id tile; value := value tile;
                  position := position emptyTile |}
             else if decide (tile = emptyTile) then
               {| id := id tile; value := value tile;
                  position := position clickedTile |}
             else tile))
  ∧ length (tiles s') = length (tiles s)
  ∧ moveCount s' = (moveCount s + 1)%Z
  ∧ isRunning s' = true.
Proof.
  intros Hinv Hw Hc He Hev Hadj s'. apply isAdjacent_spec in Hadj.
  assert (Hf : findEmptyTile (tiles s) = Some emptyTile)
    by (by apply board_findEmptyTile).
  subst s'. rewrite (handleTileClick_moves s clickedTile emptyTile) by done.
  simpl. repeat split; [|by rewrite length_map].
  intros i tile Hi.
  change (map ?f ?l) with (f <$> l). rewrite list_lookup_fmap, Hi. simpl.
  f_equal. apply (move_tile_board (tiles s)); try done.
  by eapply list_elem_of_lookup_2.
Qed.

Lemma handleTileClick_adjacent_witness :
  tiles (handleTileClick solved_session (tile_of_slot 14 15%Z)) !! 14
  = Some {| id := 14%Z; value := 15%Z;
            position := {| row := 3%Z; col := 3%Z |} |}
  ∧ moveCount (handleTileClick solved_session (tile_of_slot 14 15%Z)) = 1%Z.
Proof.
  destruct (handleTileClick_adjacent solved_session
              (tile_of_slot 14 15%Z) (tile_of_slot 15 0%Z))
    as (Htiles & _ & Hcount & _).
  - exact solved_board_inv.
  - reflexivity.
  - apply (bool_decide_unpack _). vm_compute. exact I.
  - apply (bool_decide_unpack _). vm_compute. exact I.
  - reflexivity.
  - left. split; reflexivity.
  - split; [|exact Hcount].
    apply (Htiles 14 (tile_of_slot 14 15%Z)). reflexivity.
Defined.

(** C6. The two bijections of a board: the positions of the tiles are the 16
    cells of the grid, each once, and their values are 0, ..., 15, each
    once.  Every board [initializeGame] returns has them, and a click on a
    tile of a board that has them leaves a board that has them. *)
Theorem board_inv_preserved :
  (∀ fuel rnd k s k',
      unit_draws rnd → initializeGame fuel rnd k = Some (s, k') →
      board_inv (tiles s))
  ∧ (∀ s clickedTile,
      board_inv (tiles s) → clickedTile ∈ tiles s →
      board_inv (tiles (handleTileClick s clickedTile))).
Proof.
  split.
  - intros fuel rnd k s k' _ H.
    apply initializeGame_Some in H as (values & _ & _ & Hp & ->). simpl.
    assert (Hlen : length values = 16) by (by rewrite (Permutation_length Hp)).
    split.
    + by rewrite build_tiles_positions.
    + by rewrite build_tiles_values.
  - intros s c Hinv Hc.
    destruct (handleTileClick_cases s c) as [->|(e & _ & He & Hadj & ->)]; [done|].
    simpl. apply (board_findEmptyTile _ Hinv) in He as [He Hev].
    by apply moved_board_inv.
Qed.

Lemma board_inv_preserved_witness :
  board_inv (tiles solved_session)
  ∧ board_inv (tiles (handleTileClick solved_session (tile_of_slot 14 15%Z))).
Proof.
  assert (H : board_inv (tiles solved_session)).
  { apply (proj1 board_inv_preserved 1 (fun _ => 0%Q) 0 solved_session 15).
    - intros k. split; [unfold Qle | unfold Qlt]; simpl; lia.
    - vm_compute. reflexivity. }
  split; [exact H|].
  apply (proj2 board_inv_preserved solved_session (tile_of_slot 14 15%Z) H).
  apply (bool_decide_unpack _). vm_compute. exact I.
Defined.

Lemma winCheckEffect_tiles s : tiles (winCheckEffect s) = tiles s.
Proof. unfold winCheckEffect. by repeat case_match. Qed.

(** The second click of a tile that has just moved, in any session that
    holds the board left by the first click and is not won. *)
Lemma second_click_restores (s s1 : Session) (clickedTile clickedTile' emptyTile : Tile) :
  board_inv (tiles s) →
  clickedTile ∈ tiles s →
  emptyTile ∈ tiles s →
  value emptyTile = EMPTY_TILE_VALUE →
  isAdjacent (position clickedTile) (position emptyTile) = true →
  tiles s1 = map (move_tile clickedTile emptyTile) (tiles s) →
  isWon s1 = false →
  clickedTile' ∈ tiles s1 →
  value clickedTile' = value clickedTile →
  position clickedTile' = position emptyTile
  ∧ tiles (handleTileClick s1 clickedTile') = tiles s.
Proof.
  intros Hinv Hc He Hev Hadj Ht1 Hw1 Hc' Hv'.
  pose proof (moved_board_inv _ Hinv _ _ Hc He Hev Hadj) as Hinv1.
  pose proof (clicked_not_empty _ Hinv _ _ Hc He Hev Hadj) as Hcv.
  pose proof (clicked_position_ne _ _ Hadj) as Hcp.
  rewrite Ht1 in Hc'.
  assert (Hc1 : clickedTile' = {| id := id clickedTile; value := value clickedTile;
                                  position := position emptyTile |}).
  { apply (board_value_inj _ Hinv1); [done| |done].
    apply list_elem_of_fmap. exists clickedTile. split; [|done].
    rewrite (move_tile_board _ Hinv _ _ Hc He Hev) by done.
    by rewrite decide_True. }
  set (e1 := {| id := id emptyTile; value := value emptyTile;
                position := position clickedTile |}).
  assert (He1 : e1 ∈ map (move_tile clickedTile emptyTile) (tiles s)).
  { apply list_elem_of_fmap. exists emptyTile. split; [|done].
    rewrite (move_tile_board _ Hinv _ _ Hc He Hev) by done.
    rewrite decide_False, decide_True; [done..|]. intros ->. done. }
  assert (Hf1 : findEmptyTile (tiles s1) = Some e1).
  { rewrite Ht1. by apply board_findEmptyTile. }
  assert (Hadj1 : isAdjacent (position clickedTile') (position e1) = true).
  { rewrite Hc1. simpl. by rewrite isAdjacent_sym. }
  split; [by rewrite Hc1|].
  rewrite (handleTileClick_moves s1 clickedTile' e1 Hw1 Hf1 Hadj1). simpl.
  rewrite Ht1. change (map ?f ?l) with (f <$> l).
  rewrite <- list_fmap_compose.
  rewrite <- (list_fmap_id (tiles s)) at 2. apply list_fmap_ext.
  intros i t Hi. simpl. apply list_elem_of_lookup_2 in Hi.
  rewrite (move_tile_board _ Hinv _ _ Hc He Hev) by done.
  unfold move_tile. rewrite Hc1. simpl.
  destruct (decide (t = clickedTile)) as [->|Hn].
  - simpl. rewrite Z.eqb_refl. by destruct clickedTile.
  - destruct (decide (t = emptyTile)) as [->|Hn'].
    + simpl. rewrite Hev. destruct (Z.eqb_spec EMPTY_TILE_VALUE (value clickedTile));
        [congruence|]. simpl. rewrite <- Hev. by destruct emptyTile.
    + destruct (Z.eqb_spec (value t) (value clickedTile)) as [Hv|Hv].
      { exfalso. apply Hn. by apply (board_value_inj _ Hinv). }
      destruct (Z.eqb_spec (value t) EMPTY_TILE_VALUE) as [Hv0|Hv0]; [|done].
      exfalso. apply Hn'. apply (board_value_inj _ Hinv); [done|done|congruence].
Qed.

(** C7. A move undoes itself.  In a session that is not won, click a tile
    next to the empty cell, then click the tile of the same value again: it
    now sits on the former empty cell, next to the empty cell, and the second
    click puts the board back to what it was before the first.  This holds
    of two calls of the handler in a row; it also holds with the win check
    run between the two clicks as long as that leaves the session not won.
    When the first click solves the board, the win check sets the flag and
    the second click changes nothing. *)
Theorem handleTileClick_twice (s : Session) (clickedTile clickedTile' emptyTile : Tile) :
  board_inv (tiles s) →
  isWon s = false →
  clickedTile ∈ tiles s →
  emptyTile ∈ tiles s →
  value emptyTile = EMPTY_TILE_VALUE →
  adjacent_cells (position clickedTile) (position emptyTile) →
  clickedTile' ∈ tiles (handleTileClick s clickedTile) →
  value clickedTile' = value clickedTile →
  let s1 := winCheckEffect (handleTileClick s clickedTile) in
  position clickedTile' = position emptyTile
  ∧ tiles (handleTileClick (handleTileClick s clickedTile) clickedTile') = tiles s
  ∧ (isWon s1 = false → tiles (handleTileClick s1 clickedTile') = tiles s)
  ∧ (isWon s1 = true → handleTileClick s1 clickedTile' = s1).
Proof.
  intros Hinv Hw Hc He Hev Hadj Hc' Hv' s1.
  apply isAdjacent_spec in Hadj.
  assert (Hf : findEmptyTile (tiles s) = Some emptyTile)
    by (by apply board_findEmptyTile).
  pose proof (handleTileClick_moves s clickedTile emptyTile Hw Hf Hadj) as Hs.
  assert (Hd : position clickedTile' = position emptyTile
               ∧ tiles (handleTileClick (handleTileClick s clickedTile) clickedTile')
                 = tiles s).
  { apply (second_click_restores s _ clickedTile clickedTile' emptyTile);
      try done; by rewrite Hs. }
  destruct Hd as [Hp Hd]. split; [exact Hp|]. split; [exact Hd|]. split.
  - intros Hw1.
    apply (second_click_restores s s1 clickedTile clickedTile' emptyTile);
      try done; subst s1; rewrite winCheckEffect_tiles; [by rewrite Hs|done].
  - intros Hw1. unfold handleTileClick at 1. by rewrite Hw1.
Qed.

Lemma handleTileClick_twice_witness :
  tiles (handleTileClick
           (winCheckEffect (handleTileClick solved_session (tile_of_slot 14 15%Z)))
           {| id := 14%Z; value := 15%Z;
              position := {| row := 3%Z; col := 3%Z |} |})
  = tiles solved_session.
Proof.
  refine (proj1 (proj2 (proj2 (handleTileClick_twice solved_session
                   (tile_of_slot 14 15%Z)
                   {| id := 14%Z; value := 15%Z;
                      position := {| row := 3%Z; col := 3%Z |} |}
                   (tile_of_slot 15 0%Z) solved_board_inv _ _ _ _ _ _ _))) _).
  - reflexivity.
  - apply (bool_decide_unpack _). vm_compute. exact I.
  - apply (bool_decide_unpack _). vm_compute. exact I.
  - reflexivity.
  - left. split; reflexivity.
  - apply (bool_decide_unpack _). vm_compute. exact I.
  - reflexivity.
  - reflexivity.
Defined.

(** ** The win check and the session invariant *)

Lemma tile_in_place_spec tile :
  (0 <= value tile)%Z →
  tile_in_place tile = true ↔ in_canonical_place tile.
Proof.
  intros Hv. unfold tile_in_place, in_canonical_place, canonical_position,
    EMPTY_TILE_VALUE.
  destruct tile as [i v [r c]]. simpl in *.
  destruct (Z.eqb_spec v 0) as [->|Hn].
  - rewrite decide_True by done. rewrite andb_true_iff, !Z.eqb_eq.
    split; [intros [-> ->]; done | intros [= -> ->]; done].
  - rewrite decide_False by done. rewrite Z.rem_mod_nonneg by (unfold GRID_SIZE; lia).
    rewrite andb_true_iff, !Z.eqb_eq.
    split; [intros [-> ->]; done | intros [= -> ->]; done].
Qed.

(** C3. On tiles whose values lie in [0, 15], as those of a board do, the win
    check answers true exactly when every tile is in its place of the solved
    configuration: (3, 3) for the value 0 and ((v - 1) / 4, (v - 1) mod 4) for
    a value [v] other than 0.  A single tile out of its place is enough for
    the answer false. *)
Theorem hasWon_exact (ts : list Tile) :
  (∀ tile, tile ∈ ts → (0 <= value tile < GRID_SIZE * GRID_SIZE)%Z) →
  (hasWon ts = true ↔ ∀ tile, tile ∈ ts → in_canonical_place tile)
  ∧ (∀ tile, tile ∈ ts → ¬ in_canonical_place tile → hasWon ts = false).
Proof.
  intros Hv.
  assert (Hiff : hasWon ts = true ↔ ∀ tile, tile ∈ ts → in_canonical_place tile).
  { unfold hasWon. rewrite forallb_forall. split.
    - intros H tile Hin. apply tile_in_place_spec; [by apply Hv|].
      by apply H, list_elem_of_In.
    - intros H tile Hin%list_elem_of_In. apply tile_in_place_spec; [by apply Hv|].
      by apply H. }
  split; [done|].
  intros tile Hin Hn. apply not_true_is_false. rewrite Hiff.
  intros H. by apply Hn, H.
Qed.

Lemma hasWon_exact_witness : hasWon misplaced_board = false.
Proof.
  refine (proj2 (hasWon_exact misplaced_board _) misplaced_tile _ _).
  - apply Forall_forall. apply (bool_decide_unpack _). vm_compute. exact I.
  - apply (bool_decide_unpack _). vm_compute. exact I.
  - intros H. discriminate H.
Defined.

Lemma winCheckEffect_idem s : winCheckEffect (winCheckEffect s) = winCheckEffect s.
Proof.
  unfold winCheckEffect.
  destruct (length (tiles s) =? 0) eqn:Hl; [by rewrite Hl|].
  destruct (hasWon (tiles s) && negb (isWon s) && (0 <? moveCount s)%Z) eqn:Hc.
  - simpl. rewrite Hl. by rewrite andb_false_r.
  - by rewrite Hl, Hc.
Qed.

Lemma winCheckEffect_moveCount s : moveCount (winCheckEffect s) = moveCount s.
Proof. unfold winCheckEffect. by repeat case_match. Qed.

Lemma winCheckEffect_inv s :
  board_inv (tiles s) →
  (isWon s = true →
   (0 < moveCount s)%Z ∧ hasWon (tiles s) = true ∧ isRunning s = false) →
  session_inv (winCheckEffect s).
Proof.
  intros Hb Hw. pose proof (board_length _ Hb) as Hlen.
  unfold session_inv, winCheckEffect.
  destruct (length (tiles s) =? 0) eqn:Hl; [apply Nat.eqb_eq in Hl; lia|].
  destruct (hasWon (tiles s)) eqn:Hh; simpl.
  - destruct (isWon s) eqn:Hi; simpl.
    + rewrite Hh, Hi. split; [done|]. split; [done|]. done.
    + destruct (Z.ltb_spec 0 (moveCount s)) as [Hm|Hm]; simpl.
      * split; [done|]. split; done.
      * rewrite Hh, Hi. split; [done|]. split; [done|]. intros _ ?. lia.
  - rewrite Hh. split; [done|]. split; [|done].
    intros Hi. destruct (Hw Hi) as (_ & ? & _). done.
Qed.

Lemma winCheckEffect_fixed s : session_inv s → winCheckEffect s = s.
Proof.
  intros (Hb & Hw & Hs). unfold winCheckEffect.
  destruct (length (tiles s) =? 0); [done|].
  destruct (hasWon (tiles s)) eqn:Hh; [|done].
  destruct (isWon s) eqn:Hi; [done|].
  destruct (Z.ltb_spec 0 (moveCount s)) as [Hm|Hm]; [|done].
  simpl. specialize (Hs eq_refl Hm). done.
Qed.

Lemma initializeGame_inv fuel rnd k s k' :
  initializeGame fuel rnd k = Some (s, k') → session_inv (winCheckEffect s).
Proof.
  intros H. apply winCheckEffect_inv.
  - pose proof (initializeGame_Some _ _ _ _ _ H) as (values & _ & _ & Hp & ->).
    simpl. assert (Hlen : length values = 16) by (by rewrite (Permutation_length Hp)).
    split; [by rewrite build_tiles_positions | by rewrite build_tiles_values].
  - apply initializeGame_Some in H as (values & _ & _ & _ & ->). done.
Qed.

Lemma dispatch_inv s e s' :
  session_inv s → dispatch s e = Some s' → session_inv s'.
Proof.
  intros Hinv H. destruct e as [fuel rnd|c| |]; simpl in H.
  - destruct (initializeGame fuel rnd 0) as [[s1 k1]|] eqn:E; [|done].
    injection H as <-. by eapply initializeGame_inv.
  - destruct (bool_decide (c ∈ tiles s)) eqn:Hc; [|done].
    apply bool_decide_eq_true in Hc.
    destruct (negb (value c =? EMPTY_TILE_VALUE)%Z); [|done].
    simpl in H. injection H as <-.
    destruct Hinv as (Hb & Hw & Hs).
    destruct (handleTileClick_cases s c) as [->|(e & Hnw & He & Hadj & ->)].
    + by apply winCheckEffect_inv.
    + apply winCheckEffect_inv; [|done]. simpl.
      apply (board_findEmptyTile _ Hb) in He as [He Hev].
      by apply moved_board_inv.
  - injection H as <-. destruct Hinv as (Hb & _).
    by apply winCheckEffect_inv.
  - injection H as <-. destruct Hinv as (Hb & Hw & Hs).
    unfold timerTick. by destruct (isRunning s && negb (isWon s)).
Qed.

Lemma reachable_inv s : reachable s → session_inv s.
Proof.
  induction 1 as [fuel rnd s k _ H|s e s' _ IH _ H].
  - by eapply initializeGame_inv.
  - by eapply dispatch_inv.
Qed.

Lemma one_slide_draws_unit : unit_draws one_slide_draws.
Proof.
  intros [|k]; split; [unfold Qle | unfold Qlt | unfold Qle | unfold Qlt];
    simpl; lia.
Qed.

Lemma one_slide_reachable : reachable one_slide_session.
Proof.
  apply (reachable_mount 1 one_slide_draws one_slide_session 15).
  - apply one_slide_draws_unit.
  - vm_compute. reflexivity.
Qed.

(** C8. The won flag and the move count.  In every state of a mounted
    component the flag is set exactly when the board is solved and the move
    count is positive, and then the clock is stopped; so a transition sets
    the flag exactly when it ends on a solved board with a positive move
    count.  A new game starts with the flag down and no move counted, also
    when its board happens to be the solved one, as it is for a source of
    zero draws.  The flag up implies a positive move count throughout. *)
Theorem won_flag_needs_a_move :
  (∀ s, reachable s →
     (isWon s = true ↔ hasWon (tiles s) = true ∧ (0 < moveCount s)%Z)
     ∧ (isWon s = true → isRunning s = false))
  ∧ (∀ s e s',
       reachable s →
       (∀ fuel rnd, e = EvNewGame fuel rnd → unit_draws rnd) →
       dispatch s e = Some s' →
       isWon s = false →
       isWon s' = true ↔ hasWon (tiles s') = true ∧ (0 < moveCount s')%Z)
  ∧ (∀ s fuel rnd s',
       dispatch s (EvNewGame fuel rnd) = Some s' →
       isWon s' = false ∧ moveCount s' = 0%Z)
  ∧ (∀ s, ∃ s',
       dispatch s (EvNewGame 1 (fun _ => 0%Q)) = Some s'
       ∧ hasWon (tiles s') = true ∧ isWon s' = false)
  ∧ (∀ s, reachable s → isWon s = true → (0 < moveCount s)%Z).
Proof.
  assert (Hreach : ∀ s, reachable s →
            (isWon s = true ↔ hasWon (tiles s) = true ∧ (0 < moveCount s)%Z)
            ∧ (isWon s = true → isRunning s = false)).
  { intros s (Hb & Hw & Hs)%reachable_inv. split; [split|].
    - intros Hi. destruct (Hw Hi) as (? & ? & _). done.
    - intros [? ?]. by apply Hs.
    - intros Hi. destruct (Hw Hi) as (_ & _ & ?). done. }
  split; [exact Hreach|]. split; [|split; [|split]].
  - intros s e s' Hs He Hd _. apply Hreach. by eapply reachable_step.
  - intros s fuel rnd s' Hd. simpl in Hd.
    destruct (initializeGame fuel rnd 0) as [[s1 k1]|] eqn:E; [|done].
    injection Hd as <-.
    apply initializeGame_Some in E as (values & _ & _ & _ & ->).
    unfold winCheckEffect. simpl. rewrite andb_false_r. by case_match.
  - intros s. eexists. split; [vm_compute; reflexivity|]. split; reflexivity.
  - intros s Hs Hi. by apply (Hreach s Hs).
Qed.

Lemma won_flag_needs_a_move_witness :
  reachable one_slide_session
  ∧ dispatch one_slide_session (EvClick (tile_of_slot 15 15%Z)) = Some won_session
  ∧ hasWon (tiles won_session) = true ∧ (0 < moveCount won_session)%Z.
Proof.
  split; [exact one_slide_reachable|]. split; [vm_compute; reflexivity|].
  refine (proj1 (proj1 (proj2 won_flag_needs_a_move) one_slide_session
                   (EvClick (tile_of_slot 15 15%Z)) won_session
                   one_slide_reachable _ _ _) _).
  - intros fuel rnd Heq. discriminate Heq.
  - vm_compute. reflexivity.
  - reflexivity.
  - reflexivity.
Defined.

(** ** Inversion parity under a slide *)

Lemma below_app x l1 l2 : below x (l1 ++ l2) = below x l1 + below x l2.
Proof. unfold below. by rewrite filter_app, length_app. Qed.

Lemma below_cons x y l :
  below x (y :: l) = (if decide (y < x)%Z then 1 else 0) + below x l.
Proof. unfold below. rewrite filter_cons. by case_decide. Qed.

Lemma inv_rec_cons x l : inv_rec (x :: l) = below x l + inv_rec l.
Proof. done. Qed.

(** Inversions between a prefix and what follows it. *)
Lemma inv_rec_app_insert P y : ∀ M Q,
  inv_rec (P ++ y :: M ++ Q) + inv_rec (M ++ y :: Q)
  = inv_rec (P ++ M ++ y :: Q) + inv_rec (y :: M ++ Q).
Proof.
  induction P as [|p P IH]; intros M Q; [simpl; lia|].
  specialize (IH M Q). cbn [app]. rewrite !inv_rec_cons in *.
  assert (below p (P ++ y :: M ++ Q) = below p (P ++ M ++ y :: Q)); [|lia].
  rewrite !below_app, !below_cons, !below_app. lia.
Qed.

Lemma inv_rec_move y Q : ∀ M,
  y ∉ M →
  ∃ n, inv_rec (y :: M ++ Q) + inv_rec (M ++ y :: Q) = 2 * n + length M.
Proof.
  induction M as [|m M IH]; intros Hy.
  - exists (inv_rec (y :: Q)). simpl. lia.
  - apply not_elem_of_cons in Hy as [Hne Hy].
    destruct (IH Hy) as [n Hn].
    cbn [app length]. rewrite !inv_rec_cons in *.
    rewrite !below_app, !below_cons, !below_app in *.
    destruct (decide (m < y)%Z), (decide (y < m)%Z); try lia.
    + exists (n + below m M + below m Q). lia.
    + exists (n + below m M + below m Q). lia.
Qed.

Lemma inv_rec_slide P y M Q :
  y ∉ M →
  Z.odd (Z.of_nat (inv_rec (P ++ y :: M ++ Q)))
  = xorb (Z.odd (Z.of_nat (length M)))
         (Z.odd (Z.of_nat (inv_rec (P ++ M ++ y :: Q)))).
Proof.
  intros Hy. destruct (inv_rec_move y Q M Hy) as [n Hn].
  pose proof (inv_rec_app_insert P y M Q) as H.
  assert (E : (Z.of_nat (inv_rec (P ++ y :: M ++ Q))
               + 2 * Z.of_nat (inv_rec (M ++ y :: Q))
               = Z.of_nat (length M) + Z.of_nat (inv_rec (P ++ M ++ y :: Q))
                 + 2 * Z.of_nat n)%Z) by lia.
  apply (f_equal Z.odd) in E.
  rewrite !Z.odd_add, !Z.odd_mul in E. simpl in E.
  by rewrite !xorb_false_r in E.
Qed.

(** [isSolvable] as one parity. *)
Lemma rem2_odd_bool z : (0 <= z)%Z → Z.rem z 2 = if Z.odd z then 1%Z else 0%Z.
Proof. intros Hz. rewrite Z.rem_mod_nonneg by lia. apply Zmod_odd. Qed.

Lemma indexOf_from_range values x : ∀ i,
  indexOf_from values x i = (-1)%Z
  ∨ (i <= indexOf_from values x i < i + Z.of_nat (length values))%Z.
Proof.
  induction values as [|v values IH]; intros i; [by left|].
  cbn [indexOf_from length]. destruct (v =? x)%Z; [right; lia|].
  destruct (IH (i + 1)%Z) as [->|?]; [by left|right; lia].
Qed.

Lemma emptyRowFromBottom_pos values :
  length values = 16 → (0 < emptyRowFromBottom values)%Z.
Proof.
  intros Hlen. unfold emptyRowFromBottom, indexOf, GRID_SIZE.
  destruct (indexOf_from_range values EMPTY_TILE_VALUE 0) as [->|H].
  - done.
  - rewrite Hlen in H. Z.div_mod_to_equations. lia.
Qed.

Lemma count_inversions_nonneg a : (0 <= count_inversions a)%Z.
Proof. rewrite count_inversions_rec. lia. Qed.

Lemma isSolvable_xor (values : list Z) :
  length values = 16 →
  isSolvable values
  = xorb (Z.odd (emptyRowFromBottom values))
         (Z.odd (count_inversions (valuesWithoutEmpty values))).
Proof.
  intros Hlen. unfold isSolvable.
  pose proof (emptyRowFromBottom_pos values Hlen).
  pose proof (count_inversions_nonneg (valuesWithoutEmpty values)).
  rewrite !rem2_odd_bool by lia.
  by destruct (Z.odd _), (Z.odd _).
Qed.

Lemma emptyRowFromBottom_lookup values e :
  NoDup values → values !! e = Some 0%Z →
  emptyRowFromBottom values = (GRID_SIZE - Z.of_nat e / GRID_SIZE)%Z.
Proof.
  intros Hnd He. unfold emptyRowFromBottom, EMPTY_TILE_VALUE.
  by rewrite (indexOf_lookup values 0%Z e).
Qed.

Lemma swap_decompose (L : list Z) (a b : nat) (x y : Z) :
  a < b → L !! a = Some x → L !! b = Some y →
  ∃ A M B, L = A ++ x :: M ++ y :: B
           ∧ length A = a ∧ length M = b - a - 1
           ∧ <[b := x]> (<[a := y]> L) = A ++ y :: M ++ x :: B.
Proof.
  intros Hab Ha Hb.
  apply list_elem_of_split_length in Ha as (A & R & -> & ->).
  rewrite lookup_app_r in Hb by lia.
  replace (b - length A) with (S (b - length A - 1)) in Hb by lia.
  simpl in Hb.
  apply list_elem_of_split_length in Hb as (M & B & -> & HM).
  exists A, M, B. repeat split; [lia|].
  rewrite insert_app_r_alt, Nat.sub_diag by lia. simpl.
  rewrite insert_app_r_alt by lia.
  replace (b - length A) with (S (length M)) by lia. simpl.
  rewrite insert_app_r_alt, Nat.sub_diag by lia. done.
Qed.

Lemma valuesWithoutEmpty_id (M : list Z) :
  0%Z ∉ M → valuesWithoutEmpty M = M.
Proof.
  unfold valuesWithoutEmpty, EMPTY_TILE_VALUE.
  induction M as [|m M IH]; [done|].
  intros [Hm HM]%not_elem_of_cons. rewrite filter_cons.
  rewrite decide_True by done. by rewrite IH.
Qed.

Lemma valuesWithoutEmpty_app l1 l2 :
  valuesWithoutEmpty (l1 ++ l2) = valuesWithoutEmpty l1 ++ valuesWithoutEmpty l2.
Proof. apply filter_app. Qed.

Lemma valuesWithoutEmpty_cons x l :
  valuesWithoutEmpty (x :: l)
  = if decide (x = 0%Z) then valuesWithoutEmpty l else x :: valuesWithoutEmpty l.
Proof.
  unfold valuesWithoutEmpty, EMPTY_TILE_VALUE. rewrite filter_cons.
  by repeat case_decide.
Qed.

Lemma slide_parities (L : list Z) (a b : nat) (x y : Z) :
  NoDup L → a < b →
  L !! a = Some x → L !! b = Some y →
  x = 0%Z ∨ y = 0%Z →
  (b = a + 1 ∧ (Z.of_nat a / GRID_SIZE = Z.of_nat b / GRID_SIZE)%Z) ∨ b = a + 4 →
  let L' := <[b := x]> (<[a := y]> L) in
  Z.odd (count_inversions (valuesWithoutEmpty L'))
  = xorb (Z.odd (Z.of_nat (b - a - 1)))
         (Z.odd (count_inversions (valuesWithoutEmpty L)))
  ∧ Z.odd (emptyRowFromBottom L')
    = xorb (Z.odd (Z.of_nat (b - a - 1))) (Z.odd (emptyRowFromBottom L))
  ∧ (b = a + 1 →
     valuesWithoutEmpty L' = valuesWithoutEmpty L
     ∧ emptyRowFromBottom L' = emptyRowFromBottom L).
Proof.
  intros Hnd Hab Ha Hbl Hzero Hgeo L'.
  assert (Hnd' : NoDup L').
  { unfold L'. by rewrite (Permutation_insert_swap L a b x y). }
  assert (Hla : L' !! a = Some y).
  { unfold L'. rewrite list_lookup_insert_ne by lia.
    apply list_lookup_insert_eq. by eapply lookup_lt_Some. }
  assert (Hlb : L' !! b = Some x).
  { unfold L'. apply list_lookup_insert_eq. rewrite length_insert.
    by eapply lookup_lt_Some. }
  assert (Hrows : ∀ ra rb : Z,
            ra = (GRID_SIZE - Z.of_nat a / GRID_SIZE)%Z →
            rb = (GRID_SIZE - Z.of_nat b / GRID_SIZE)%Z →
            Z.odd rb = xorb (Z.odd (Z.of_nat (b - a - 1))) (Z.odd ra)
            ∧ (b = a + 1 → rb = ra)).
  { intros ra rb -> ->. destruct Hgeo as [[-> Hrow]| ->].
    - rewrite Hrow. replace (a + 1 - a - 1) with 0 by lia. done.
    - replace (a + 4 - a - 1) with 3 by lia. split; [|lia].
      replace (Z.of_nat (a + 4) / GRID_SIZE)%Z
        with (Z.of_nat a / GRID_SIZE + 1)%Z
        by (unfold GRID_SIZE; Z.div_mod_to_equations; lia).
      replace (GRID_SIZE - (Z.of_nat a / GRID_SIZE + 1))%Z
        with (Z.pred (GRID_SIZE - Z.of_nat a / GRID_SIZE)) by lia.
      rewrite Z.odd_pred, <- Z.negb_odd. done. }
  destruct (swap_decompose L a b x y Hab Ha Hbl) as (A & M & B & HL & HA & HM & HL').
  fold L' in HL'. clearbody L'. subst L L'.
  pose proof Hnd as Hnd0.
  apply NoDup_app in Hnd0 as (_ & _ & Hnd0).
  apply NoDup_cons in Hnd0 as (Hx & Hnd0).
  apply NoDup_app in Hnd0 as (_ & HMyB & _).
  assert (HxM : x ∉ M) by (intros ?; apply Hx, elem_of_app; by left).
  assert (HyM : y ∉ M) by (intros ?; eapply HMyB; [done|by left]).
  assert (Hxy : x ≠ y) by (intros ->; apply Hx, elem_of_app; right; by left).
  rewrite !count_inversions_rec.
  rewrite !valuesWithoutEmpty_app, !valuesWithoutEmpty_cons.
  rewrite !valuesWithoutEmpty_app, !valuesWithoutEmpty_cons.
  destruct Hzero as [-> | ->].
  - repeat (case_decide; try congruence).
    rewrite (valuesWithoutEmpty_id M) by done.
    rewrite (emptyRowFromBottom_lookup _ b Hnd' Hlb).
    rewrite (emptyRowFromBottom_lookup _ a Hnd Ha).
    destruct (Hrows _ _ eq_refl eq_refl) as [Hr1 Hr2].
    rewrite <- HM in Hr1 |- *.
    split; [apply inv_rec_slide; done|]. split; [done|].
    intros Hb1. split; [|by apply Hr2].
    destruct M; [done|simpl in HM; lia].
  - repeat (case_decide; try congruence).
    rewrite (valuesWithoutEmpty_id M) by done.
    rewrite (emptyRowFromBottom_lookup _ a Hnd' Hla).
    rewrite (emptyRowFromBottom_lookup _ b Hnd Hbl).
    destruct (Hrows _ _ eq_refl eq_refl) as [Hr1 Hr2].
    rewrite <- HM in Hr1 |- *.
    split; [|split].
    + rewrite (inv_rec_slide _ x M _ HxM).
      by rewrite <- xorb_assoc, xorb_nilpotent, xorb_false_l.
    + rewrite Hr1. by rewrite <- xorb_assoc, xorb_nilpotent, xorb_false_l.
    + intros Hb1. split; [|by rewrite Hr2].
      destruct M; [done|simpl in HM; lia].
Qed.

Lemma isSolvable_slide (L : list Z) (a b : nat) (x y : Z) :
  NoDup L → length L = 16 → a < b →
  L !! a = Some x → L !! b = Some y →
  x = 0%Z ∨ y = 0%Z →
  (b = a + 1 ∧ (Z.of_nat a / GRID_SIZE = Z.of_nat b / GRID_SIZE)%Z) ∨ b = a + 4 →
  isSolvable (<[b := x]> (<[a := y]> L)) = isSolvable L.
Proof.
  intros Hnd Hlen Hab Ha Hbl Hzero Hgeo.
  destruct (slide_parities L a b x y Hnd Hab Ha Hbl Hzero Hgeo) as (Hi & Hr & _).
  rewrite !isSolvable_xor by (by rewrite ?length_insert).
  rewrite Hi, Hr.
  generalize (Z.odd (Z.of_nat (b - a - 1))).
  generalize (Z.odd (emptyRowFromBottom L)).
  generalize (Z.odd (count_inversions (valuesWithoutEmpty L))).
  by intros [] [] [].
Qed.

(** ** Slides on the row-major sequence *)

Lemma cell_of_index_inj (i j : Z) :
  (0 <= i < 16)%Z → (0 <= j < 16)%Z →
  cell_of_index i = cell_of_index j → i = j.
Proof.
  unfold cell_of_index, GRID_SIZE. intros Hi Hj [= Hr Hc].
  Z.div_mod_to_equations. lia.
Qed.

Lemma elem_of_all_cells p :
  p ∈ all_cells ↔ ∃ i, i < 16 ∧ p = cell_of_index (Z.of_nat i).
Proof.
  unfold all_cells. rewrite list_elem_of_fmap. split.
  - intros (z & -> & Hz). apply elem_of_seqZ in Hz.
    exists (Z.to_nat z). unfold GRID_SIZE in Hz.
    split; [lia|]. f_equal. lia.
  - intros (i & Hi & ->). exists (Z.of_nat i). split; [done|].
    apply elem_of_seqZ. unfold GRID_SIZE. lia.
Qed.

Lemma linearValues_lookup ts i :
  i < 16 →
  linearValues ts !! i
  = Some (default (-1)%Z (tileAt ts (cell_of_index (Z.of_nat i)))).
Proof.
  intros Hi. unfold linearValues. rewrite list_lookup_fmap.
  rewrite lookup_seqZ_lt by (unfold GRID_SIZE; lia). done.
Qed.

Lemma linearValues_length ts : length (linearValues ts) = 16.
Proof. unfold linearValues. rewrite length_fmap, length_seqZ. done. Qed.

Section Linear.
Context (ts : list Tile) (Hinv : board_inv ts).

Lemma tileAt_Some p v :
  tileAt ts p = Some v ↔ ∃ t, t ∈ ts ∧ position t = p ∧ value t = v.
Proof.
  unfold tileAt. split.
  - destruct (List.find _ ts) as [t|] eqn:E; [|done].
    intros [= <-]. apply find_some in E as [Hin Hp].
    apply list_elem_of_In in Hin. apply bool_decide_eq_true in Hp. eauto.
  - intros (t & Hin & Hp & Hv).
    destruct (List.find _ ts) as [t'|] eqn:E.
    + apply find_some in E as [Hin' Hp'].
      apply list_elem_of_In in Hin'. apply bool_decide_eq_true in Hp'.
      assert (t' = t) as -> by (apply (board_position_inj _ Hinv); congruence).
      simpl. by rewrite Hv.
    + apply list_elem_of_In in Hin.
      pose proof (find_none _ _ E t Hin) as Hn. simpl in Hn.
      apply bool_decide_eq_false in Hn. done.
Qed.

Lemma board_cell_index t :
  t ∈ ts → ∃ i, i < 16 ∧ position t = cell_of_index (Z.of_nat i).
Proof.
  intros Ht. apply elem_of_all_cells. destruct Hinv as [<- _].
  by apply list_elem_of_fmap_2.
Qed.

Lemma board_cell_occupied i :
  i < 16 → ∃ t, t ∈ ts ∧ position t = cell_of_index (Z.of_nat i).
Proof.
  intros Hi.
  assert (Hin : cell_of_index (Z.of_nat i) ∈ position <$> ts).
  { destruct Hinv as [-> _]. apply elem_of_all_cells. eauto. }
  apply list_elem_of_fmap in Hin as (t & Hp & Ht). eauto.
Qed.

Lemma linearValues_tile t i :
  t ∈ ts → position t = cell_of_index (Z.of_nat i) → i < 16 →
  linearValues ts !! i = Some (value t).
Proof.
  intros Ht Hp Hi. rewrite linearValues_lookup by done.
  assert (tileAt ts (cell_of_index (Z.of_nat i)) = Some (value t)) as ->; [|done].
  apply tileAt_Some. eauto.
Qed.

Lemma linearValues_NoDup : NoDup (linearValues ts).
Proof.
  apply NoDup_alt. intros i j v Hi Hj.
  assert (i < 16) by (apply lookup_lt_Some in Hi; by rewrite linearValues_length in Hi).
  assert (j < 16) by (apply lookup_lt_Some in Hj; by rewrite linearValues_length in Hj).
  destruct (board_cell_occupied i) as (ti & Hti & Hpi); [done|].
  destruct (board_cell_occupied j) as (tj & Htj & Hpj); [done|].
  rewrite (linearValues_tile ti i) in Hi by done.
  rewrite (linearValues_tile tj j) in Hj by done.
  assert (ti = tj) as -> by (apply (board_value_inj _ Hinv); congruence).
  apply Nat2Z.inj. apply cell_of_index_inj; [lia|lia|congruence].
Qed.
End Linear.

Section MoveLinear.
Context (ts : list Tile) (Hinv : board_inv ts).
Context (c e : Tile) (Hc : c ∈ ts) (He : e ∈ ts).
Context (Hev : value e = EMPTY_TILE_VALUE).
Context (Hadj : isAdjacent (position c) (position e) = true).

Lemma moved_linearValues ci ei :
  ci < 16 → ei < 16 →
  position c = cell_of_index (Z.of_nat ci) →
  position e = cell_of_index (Z.of_nat ei) →
  linearValues (map (move_tile c e) ts)
  = <[ci := 0%Z]> (<[ei := value c]> (linearValues ts)).
Proof.
  intros Hci Hei Hpc Hpe.
  pose proof (moved_board_inv _ Hinv _ _ Hc He Hev Hadj) as Hinv'.
  pose proof (clicked_position_ne _ _ Hadj) as Hne.
  assert (ci ≠ ei) by (intros ->; congruence).
  apply list_eq. intros n.
  destruct (decide (n < 16)) as [Hn|Hn].
  2:{ rewrite !lookup_ge_None_2; [done|..];
      rewrite ?length_insert, linearValues_length; lia. }
  destruct (board_cell_occupied _ Hinv n Hn) as (t & Ht & Hp).
  assert (Ht' : move_tile c e t ∈ map (move_tile c e) ts)
    by (by apply list_elem_of_fmap_2).
  pose proof (move_tile_board _ Hinv _ _ Hc He Hev t Ht) as Hm.
  destruct (decide (n = ci)) as [->|Hnc].
  - (* the clicked cell now holds the empty tile *)
    rewrite list_lookup_insert_eq
      by (rewrite length_insert, linearValues_length; lia).
    assert (t = c) as -> by (apply (board_position_inj _ Hinv); congruence).
    rewrite (linearValues_tile _ Hinv' (move_tile c e e) ci); try done.
    + by rewrite move_tile_value, Hev.
    + by apply list_elem_of_fmap_2.
    + rewrite (move_tile_board _ Hinv _ _ Hc He Hev e He).
      rewrite decide_False by (intros ->; done).
      by rewrite decide_True.
  - rewrite list_lookup_insert_ne by done.
    destruct (decide (n = ei)) as [->|Hne'].
    + rewrite list_lookup_insert_eq by (rewrite linearValues_length; lia).
      rewrite (linearValues_tile _ Hinv' (move_tile c e c) ei); try done.
      * by rewrite move_tile_value.
      * by apply list_elem_of_fmap_2.
      * rewrite (move_tile_board _ Hinv _ _ Hc He Hev c Hc).
        by rewrite decide_True.
    + rewrite list_lookup_insert_ne by done.
      rewrite (linearValues_tile _ Hinv t n) by done.
      rewrite (linearValues_tile _ Hinv' (move_tile c e t) n); try done.
      * by rewrite move_tile_value.
      * rewrite Hm. rewrite !decide_False; [done|..].
        -- intros ->. apply Hne'. apply Nat2Z.inj.
           apply cell_of_index_inj; [lia|lia|congruence].
        -- intros ->. apply Hnc. apply Nat2Z.inj.
           apply cell_of_index_inj; [lia|lia|congruence].
Qed.

Lemma adjacent_indices ci ei :
  ci < 16 → ei < 16 →
  position c = cell_of_index (Z.of_nat ci) →
  position e = cell_of_index (Z.of_nat ei) →
  (row (position c) = row (position e) ∧ col (position c) ≠ col (position e)
   ∧ (Z.of_nat ei / GRID_SIZE = Z.of_nat ci / GRID_SIZE)%Z
   ∧ (ci = ei + 1 ∨ ei = ci + 1))
  ∨ (col (position c) = col (position e) ∧ row (position c) ≠ row (position e)
     ∧ (ci = ei + 4 ∨ ei = ci + 4)).
Proof.
  intros Hci Hei Hpc Hpe. apply isAdjacent_spec in Hadj.
  unfold adjacent_cells in Hadj. rewrite Hpc, Hpe in *.
  unfold cell_of_index, GRID_SIZE in *. simpl in *.
  destruct Hadj as [[Hr Hcol]|[Hcol Hr]]; [left|right];
    Z.div_mod_to_equations; lia.
Qed.

(** The move, seen on the row-major sequence: the entries at two indices
    [a < b], one of which is the empty value, change places; [b = a + 1]
    for a slide along a row and [b = a + 4] for a slide along a column. *)
Lemma moved_slide_shape :
  ∃ a b x y,
    a < b
    ∧ linearValues ts !! a = Some x ∧ linearValues ts !! b = Some y
    ∧ (x = 0%Z ∨ y = 0%Z)
    ∧ ((b = a + 1 ∧ (Z.of_nat a / GRID_SIZE = Z.of_nat b / GRID_SIZE)%Z)
       ∨ b = a + 4)
    ∧ linearValues (map (move_tile c e) ts)
      = <[b := x]> (<[a := y]> (linearValues ts))
    ∧ (row (position c) = row (position e) → b = a + 1)
    ∧ (col (position c) = col (position e) → b = a + 4).
Proof.
  destruct (board_cell_index _ Hinv c Hc) as (ci & Hci & Hpc).
  destruct (board_cell_index _ Hinv e He) as (ei & Hei & Hpe).
  pose proof (moved_linearValues ci ei Hci Hei Hpc Hpe) as Hmv.
  pose proof (linearValues_tile _ Hinv c ci Hc Hpc Hci) as Hlc.
  pose proof (linearValues_tile _ Hinv e ei He Hpe Hei) as Hle.
  rewrite Hev in Hle. unfold EMPTY_TILE_VALUE in Hle.
  destruct (adjacent_indices ci ei Hci Hei Hpc Hpe)
    as [(Hr & Hcn & Hrow & [-> | ->])|(Hcol & Hrn & [-> | ->])].
  - exists ei, (ei + 1), 0%Z, (value c).
    repeat split; first [done | lia | by left | by right | (intros; lia)].
  - exists ci, (ci + 1), (value c), 0%Z.
    rewrite list_insert_insert_ne in Hmv by lia.
    repeat split; first [done | lia | by left | by right | (intros; lia)].
  - exists ei, (ei + 4), 0%Z, (value c).
    repeat split; first [done | lia | by left | by right | (intros; lia)].
  - exists ci, (ci + 4), (value c), 0%Z.
    rewrite list_insert_insert_ne in Hmv by lia.
    repeat split; first [done | lia | by left | by right | (intros; lia)].
Qed.

Lemma moved_isSolvable :
  isSolvable (linearValues (map (move_tile c e) ts))
  = isSolvable (linearValues ts).
Proof.
  destruct moved_slide_shape as (a & b & x & y & Hab & Ha & Hb & Hz & Hgeo & -> & _).
  apply isSolvable_slide;
    first [done | by apply linearValues_NoDup | apply linearValues_length].
Qed.

Lemma moved_parities :
  let before := linearValues ts in
  let after := linearValues (map (move_tile c e) ts) in
  (row (position c) = row (position e) →
   count_inversions (valuesWithoutEmpty after)
   = count_inversions (valuesWithoutEmpty before)
   ∧ emptyRowFromBottom after = emptyRowFromBottom before)
  ∧ (col (position c) = col (position e) →
     Z.odd (count_inversions (valuesWithoutEmpty after))
     = negb (Z.odd (count_inversions (valuesWithoutEmpty before)))
     ∧ Z.odd (emptyRowFromBottom after)
       = negb (Z.odd (emptyRowFromBottom before))).
Proof.
  intros before after. subst before after.
  destruct moved_slide_shape
    as (a & b & x & y & Hab & Ha & Hb & Hz & Hgeo & -> & Hh & Hv).
  pose proof (linearValues_NoDup _ Hinv) as Hnd.
  destruct (slide_parities _ a b x y Hnd Hab Ha Hb Hz Hgeo) as (Hi & Hr & Hsame).
  split.
  - intros Hrow. destruct (Hsame (Hh Hrow)) as [-> ->]. done.
  - intros Hcol. rewrite Hi, Hr, (Hv Hcol).
    replace (a + 4 - a - 1) with 3 by lia. done.
Qed.
End MoveLinear.

Lemma handleTileClick_isSolvable s c :
  board_inv (tiles s) → c ∈ tiles s →
  isSolvable (linearValues (tiles (handleTileClick s c)))
  = isSolvable (linearValues (tiles s)).
Proof.
  intros Hinv Hc.
  destruct (handleTileClick_cases s c) as [->|(e & _ & He & Hadj & ->)]; [done|].
  simpl. apply (board_findEmptyTile _ Hinv) in He as [He Hev].
  by apply moved_isSolvable.
Qed.

Lemma dispatch_solvable s e s' :
  session_inv s → isSolvable (linearValues (tiles s)) = true →
  dispatch s e = Some s' →
  isSolvable (linearValues (tiles s')) = true.
Proof.
  intros (Hb & _) Hs H. destruct e as [fuel rnd|c| |]; simpl in H.
  - destruct (initializeGame fuel rnd 0) as [[s1 k1]|] eqn:E; [|done].
    injection H as <-. rewrite winCheckEffect_tiles.
    by eapply initializeGame_linear_solvable.
  - destruct (bool_decide (c ∈ tiles s)) eqn:Hc; [|done].
    apply bool_decide_eq_true in Hc.
    destruct (negb (value c =? EMPTY_TILE_VALUE)%Z); [|done].
    simpl in H. injection H as <-. rewrite winCheckEffect_tiles.
    by rewrite handleTileClick_isSolvable.
  - injection H as <-. by rewrite winCheckEffect_tiles.
  - injection H as <-. unfold timerTick.
    by destruct (isRunning s && negb (isWon s)).
Qed.

Lemma reachable_solvable s :
  reachable s → isSolvable (linearValues (tiles s)) = true.
Proof.
  induction 1 as [fuel rnd s k _ H|s e s' Hr IH _ H].
  - rewrite winCheckEffect_tiles. by eapply initializeGame_linear_solvable.
  - eapply dispatch_solvable; [|exact IH|exact H]. by apply reachable_inv.
Qed.

(** C10. Legal moves keep the board solvable.  A click on a tile of a board
    next to the empty cell leaves a board whose row-major sequence satisfies
    [isSolvable] if the one before did.  A slide along a row changes neither
    the number of inversions nor the row of the empty cell; a slide along a
    column flips the parity of both.  Hence every board of a mounted
    component is solvable. *)
Theorem moves_preserve_solvability :
  (∀ s clickedTile emptyTile,
      board_inv (tiles s) →
      clickedTile ∈ tiles s →
      emptyTile ∈ tiles s →
      value emptyTile = EMPTY_TILE_VALUE →
      adjacent_cells (position clickedTile) (position emptyTile) →
      let before := linearValues (tiles s) in
      let after := linearValues (tiles (handleTileClick s clickedTile)) in
      (isSolvable before = true → isSolvable after = true)
      ∧ (isWon s = false →
         row (position clickedTile) = row (position emptyTile) →
         count_inversions (valuesWithoutEmpty after)
         = count_inversions (valuesWithoutEmpty before)
         ∧ emptyRowFromBottom after = emptyRowFromBottom before)
      ∧ (isWon s = false →
         col (position clickedTile) = col (position emptyTile) →
         Z.odd (count_inversions (valuesWithoutEmpty after))
         = negb (Z.odd (count_inversions (valuesWithoutEmpty before)))
         ∧ Z.odd (emptyRowFromBottom after)
           = negb (Z.odd (emptyRowFromBottom before))))
  ∧ (∀ s, reachable s → isSolvable (linearValues (tiles s)) = true).
Proof.
  split; [|exact reachable_solvable].
  intros s c e Hinv Hc He Hev Hadj before after. subst before after.
  apply isAdjacent_spec in Hadj.
  split; [by rewrite handleTileClick_isSolvable|].
  assert (Hf : findEmptyTile (tiles s) = Some e) by (by apply board_findEmptyTile).
  pose proof (moved_parities _ Hinv c e Hc He Hev Hadj) as [Hh Hv].
  split; intros Hw Hgeo; rewrite (handleTileClick_moves s c e Hw Hf Hadj); simpl.
  - by apply Hh.
  - by apply Hv.
Qed.

Lemma moves_preserve_solvability_witness :
  isSolvable (linearValues (tiles (handleTileClick one_slide_session
                                     (tile_of_slot 10 11%Z)))) = true.
Proof.
  refine (proj1 (proj1 moves_preserve_solvability one_slide_session
                   (tile_of_slot 10 11%Z) (tile_of_slot 14 0%Z) _ _ _ _ _) _).
  - apply (reachable_inv _ one_slide_reachable).
  - apply (bool_decide_unpack _). vm_compute. exact I.
  - apply (bool_decide_unpack _). vm_compute. exact I.
  - reflexivity.
  - right. split; vm_compute; reflexivity.
  - vm_compute. reflexivity.
Defined.

(** * Further properties of the code *)

Lemma winCheckEffect_clock s : clock_inv s → clock_inv (winCheckEffect s).
Proof.
  intros (Hr & Hm & Ht). unfold winCheckEffect.
  destruct (length (tiles s) =? 0); [done|].
  destruct (hasWon (tiles s) && negb (isWon s) && (0 <? moveCount s)%Z); [|done].
  split; [done|]. split; done.
Qed.

Lemma handleTileClick_clock s c : clock_inv s → clock_inv (handleTileClick s c).
Proof.
  intros (Hr & Hm & Ht).
  destruct (handleTileClick_cases s c) as [->|(e & Hw & _ & _ & ->)]; [done|].
  split; [done|]. split; simpl; [lia|done].
Qed.

Lemma initializeGame_clock fuel rnd k s k' :
  initializeGame fuel rnd k = Some (s, k') → clock_inv s.
Proof.
  intros H. apply initializeGame_Some in H as (values & _ & _ & _ & ->).
  split; [done|]. split; done.
Qed.

Lemma dispatch_clock s e s' :
  clock_inv s → dispatch s e = Some s' → clock_inv s'.
Proof.
  intros Hinv H. destruct e as [fuel rnd|c| |]; simpl in H.
  - destruct (initializeGame fuel rnd 0) as [[s1 k1]|] eqn:E; [|done].
    injection H as <-. eapply winCheckEffect_clock, initializeGame_clock, E.
  - destruct (_ && _); [|done]. injection H as <-.
    by apply winCheckEffect_clock, handleTileClick_clock.
  - injection H as <-. apply winCheckEffect_clock. split; [done|]. split; done.
  - injection H as <-. destruct Hinv as (Hr & Hm & Ht). unfold timerTick.
    destruct (isRunning s && negb (isWon s)); [|done].
    split; [done|]. split; simpl; [done|lia].
Qed.

Lemma reachable_clock s : reachable s → clock_inv s.
Proof.
  induction 1 as [fuel rnd s k _ H|s e s' _ IH _ H].
  - eapply winCheckEffect_clock, initializeGame_clock, H.
  - by eapply dispatch_clock.
Qed.

(** X1. In every state of a mounted component the clock runs exactly while
    the game is not won, and the move count and the elapsed time are never
    negative.  So the handler's [if (!isRunning) setIsRunning(true)] never
    changes anything: a click leaves [isRunning] as it was. *)
Theorem clock_runs_until_won (s : Session) :
  reachable s →
  isRunning s = negb (isWon s)
  ∧ (0 <= moveCount s)%Z ∧ (0 <= time s)%Z
  ∧ (∀ clickedTile,
       isRunning (handleTileClick s clickedTile) = isRunning s).
Proof.
  intros Hs. destruct (reachable_clock s Hs) as (Hr & Hm & Ht).
  split; [done|]. split; [done|]. split; [done|].
  intros c. destruct (handleTileClick_cases s c) as [->|(e & Hw & _ & _ & ->)];
    [done|]. simpl. by rewrite Hr, Hw.
Qed.

Lemma clock_runs_until_won_witness :
  isRunning one_slide_session = negb (isWon one_slide_session).
Proof. apply (clock_runs_until_won one_slide_session one_slide_reachable). Defined.

(** X2. A won session is frozen.  Once the flag is set the board is the
    solved one, a click on any tile changes nothing, and neither does a tick
    of the timer; only "Reset Timer" or a new game takes the flag down. *)
Theorem won_session_frozen (s : Session) :
  reachable s → isWon s = true →
  hasWon (tiles s) = true
  ∧ (∀ clickedTile, handleTileClick s clickedTile = s)
  ∧ (∀ clickedTile s', dispatch s (EvClick clickedTile) = Some s' → s' = s)
  ∧ dispatch s EvTick = Some s
  ∧ (∀ e s', dispatch s e = Some s' → isWon s' = false →
       e = EvResetTimer ∨ ∃ fuel rnd, e = EvNewGame fuel rnd).
Proof.
  intros Hs Hw. pose proof (reachable_inv s Hs) as Hinv.
  destruct Hinv as (Hb & Hwon & Hset).
  destruct (Hwon Hw) as (Hm & Hh & Hr).
  assert (Hclick : ∀ c, handleTileClick s c = s).
  { intros c. unfold handleTileClick. by rewrite Hw. }
  assert (Hfix : winCheckEffect s = s).
  { apply winCheckEffect_fixed. split; [done|]. split; done. }
  split; [done|]. split; [done|]. split; [|split].
  - intros c s' H. simpl in H. destruct (_ && _); [|done].
    injection H as <-. by rewrite Hclick.
  - simpl. unfold timerTick. by rewrite Hw, andb_false_r.
  - intros e s' H Hw'. destruct e as [fuel rnd|c| |]; [eauto|..|by left|].
    + simpl in H. destruct (_ && _); [|done]. injection H as <-.
      rewrite Hclick, Hfix in Hw'. congruence.
    + simpl in H. injection H as <-. unfold timerTick in Hw'.
      rewrite Hw, andb_false_r in Hw'. congruence.
Qed.

Lemma won_session_reachable : reachable won_session.
Proof.
  apply (reachable_step one_slide_session (EvClick (tile_of_slot 15 15%Z))).
  - exact one_slide_reachable.
  - intros fuel rnd H. discriminate H.
  - vm_compute. reflexivity.
Qed.

Lemma won_session_frozen_witness :
  handleTileClick won_session (tile_of_slot 14 15%Z) = won_session.
Proof.
  apply (proj1 (proj2 (won_session_frozen won_session won_session_reachable eq_refl))).
Defined.

Lemma move_tile_keeps_value c e t : value (move_tile c e t) = value t.
Proof. unfold move_tile. by repeat case_match. Qed.

Lemma move_tile_keeps_id c e t : id (move_tile c e t) = id t.
Proof. unfold move_tile. by repeat case_match. Qed.

Lemma handleTileClick_ids_values s c :
  id <$> tiles (handleTileClick s c) = id <$> tiles s
  ∧ value <$> tiles (handleTileClick s c) = value <$> tiles s.
Proof.
  destruct (handleTileClick_cases s c) as [->|(e & _ & _ & _ & ->)]; [done|].
  simpl. change (map ?f ?l) with (f <$> l). rewrite <- !list_fmap_compose.
  split; apply list_fmap_ext; intros i t _; simpl.
  - apply move_tile_keeps_id.
  - apply move_tile_keeps_value.
Qed.

Lemma build_tiles_ids (values : list Z) :
  length values = 16 → id <$> build_tiles values = seqZ 0 16.
Proof.
  intros H. destruct (sixteen_values values H)
    as (v0&v1&v2&v3&v4&v5&v6&v7&v8&v9&v10&v11&v12&v13&v14&v15&->).
  reflexivity.
Qed.

Lemma initializeGame_ids fuel rnd k s k' :
  initializeGame fuel rnd k = Some (s, k') → id <$> tiles s = seqZ 0 16.
Proof.
  intros H. apply initializeGame_Some in H as (values & _ & _ & Hp & ->).
  simpl. apply build_tiles_ids. by rewrite (Permutation_length Hp).
Qed.

Lemma dispatch_ids s e s' :
  id <$> tiles s = seqZ 0 16 → dispatch s e = Some s' →
  id <$> tiles s' = seqZ 0 16.
Proof.
  intros Hid H. destruct e as [fuel rnd|c| |]; simpl in H.
  - destruct (initializeGame fuel rnd 0) as [[s1 k1]|] eqn:E; [|done].
    injection H as <-. rewrite winCheckEffect_tiles. by eapply initializeGame_ids.
  - destruct (_ && _); [|done]. injection H as <-.
    rewrite winCheckEffect_tiles. by rewrite (proj1 (handleTileClick_ids_values s c)).
  - injection H as <-. by rewrite winCheckEffect_tiles.
  - injection H as <-. unfold timerTick. by destruct (_ && _).
Qed.

Lemma reachable_ids s : reachable s → id <$> tiles s = seqZ 0 16.
Proof.
  induction 1 as [fuel rnd s k _ H|s e s' _ IH _ H].
  - rewrite winCheckEffect_tiles. by eapply initializeGame_ids.
  - by eapply dispatch_ids.
Qed.

(** X3. Identities are stable.  A click changes no tile's [id] and no tile's
    value, at any index of the array; the same holds of every event but a
    new game.  In a mounted component the tile at index [i] has [id] [i]. *)
Theorem tile_identities_stable :
  (∀ s clickedTile,
      id <$> tiles (handleTileClick s clickedTile) = id <$> tiles s
      ∧ value <$> tiles (handleTileClick s clickedTile) = value <$> tiles s)
  ∧ (∀ s e s',
       dispatch s e = Some s' →
       (∀ fuel rnd, e ≠ EvNewGame fuel rnd) →
       id <$> tiles s' = id <$> tiles s ∧ value <$> tiles s' = value <$> tiles s)
  ∧ (∀ s, reachable s →
       id <$> tiles s = seqZ 0 (GRID_SIZE * GRID_SIZE)
       ∧ ∀ i tile, tiles s !! i = Some tile → id tile = Z.of_nat i).
Proof.
  split; [exact handleTileClick_ids_values|]. split.
  - intros s e s' H Hne. destruct e as [fuel rnd|c| |]; simpl in H.
    + by destruct (Hne fuel rnd).
    + destruct (_ && _); [|done]. injection H as <-.
      rewrite winCheckEffect_tiles. apply handleTileClick_ids_values.
    + injection H as <-. by rewrite winCheckEffect_tiles.
    + injection H as <-. unfold timerTick. by destruct (_ && _).
  - intros s Hs. pose proof (reachable_ids s Hs) as Hid. split; [exact Hid|].
    intros i tile Hi.
    assert (Hl : (id <$> tiles s) !! i = Some (id tile))
      by (by rewrite list_lookup_fmap, Hi).
    rewrite Hid in Hl. apply lookup_seqZ in Hl. lia.
Qed.

Lemma tile_identities_stable_witness :
  id <$> tiles won_session = seqZ 0 (GRID_SIZE * GRID_SIZE).
Proof.
  apply (proj2 (proj2 tile_identities_stable) won_session won_session_reachable).
Defined.

(** A successful click changes the board. *)
Lemma moved_tiles_differ ts c e :
  board_inv ts → c ∈ ts → e ∈ ts → value e = EMPTY_TILE_VALUE →
  isAdjacent (position c) (position e) = true →
  map (move_tile c e) ts ≠ ts.
Proof.
  intros Hinv Hc He Hev Hadj Heq.
  apply list_elem_of_lookup in Hc as [i Hi].
  assert (Hl : map (move_tile c e) ts !! i = Some (move_tile c e c)).
  { change (map ?f ?l) with (f <$> l). by rewrite list_lookup_fmap, Hi. }
  rewrite Heq, Hi in Hl. injection Hl as Hl.
  apply (f_equal position) in Hl.
  unfold move_tile in Hl. rewrite Z.eqb_refl in Hl. simpl in Hl.
  rewrite Hl, isAdjacent_same in Hadj; done.
Qed.

(** The two outcomes of a click on a tile of a board. *)
Lemma click_outcome (s : Session) (clickedTile : Tile) :
  board_inv (tiles s) → clickedTile ∈ tiles s →
  let s' := handleTileClick s clickedTile in
  (tiles s' = tiles s ∧ s' = s)
  ∨ (tiles s' ≠ tiles s ∧ moveCount s' = (moveCount s + 1)%Z
     ∧ isWon s = false
     ∧ ∃ emptyTile, findEmptyTile (tiles s) = Some emptyTile
                    ∧ adjacent_cells (position clickedTile) (position emptyTile)).
Proof.
  intros Hinv Hc s'. subst s'.
  destruct (handleTileClick_cases s clickedTile)
    as [->|(e & Hw & He & Hadj & ->)]; [by left|].
  right. simpl. pose proof He as He'.
  apply (board_findEmptyTile _ Hinv) in He' as [Hin Hev].
  split; [by apply moved_tiles_differ|]. split; [done|]. split; [done|].
  exists e. split; [done|]. by apply isAdjacent_spec.
Qed.

(** X4. The move counter counts the changes of the board.  A click on a
    rendered tile of a board either leaves board and counter as they were,
    or changes the board and adds exactly one to the counter; the second
    happens only when the session is not won and the tile is next to the
    empty cell. *)
Theorem moveCount_counts_board_changes (s s' : Session) (clickedTile : Tile) :
  board_inv (tiles s) →
  dispatch s (EvClick clickedTile) = Some s' →
  (tiles s' = tiles s ∧ moveCount s' = moveCount s)
  ∨ (tiles s' ≠ tiles s ∧ moveCount s' = (moveCount s + 1)%Z
     ∧ isWon s = false
     ∧ ∃ emptyTile, findEmptyTile (tiles s) = Some emptyTile
                    ∧ adjacent_cells (position clickedTile) (position emptyTile)).
Proof.
  intros Hinv H. simpl in H.
  destruct (bool_decide (clickedTile ∈ tiles s)) eqn:Hc; [|done].
  apply bool_decide_eq_true in Hc.
  destruct (negb _); [|done]. simpl in H. injection H as <-.
  rewrite winCheckEffect_tiles, winCheckEffect_moveCount.
  destruct (click_outcome s clickedTile Hinv Hc) as [[Ht ->]|H]; [by left|by right].
Qed.

Lemma moveCount_counts_board_changes_witness :
  tiles won_session ≠ tiles one_slide_session
  ∧ moveCount won_session = (moveCount one_slide_session + 1)%Z.
Proof.
  destruct (moveCount_counts_board_changes one_slide_session won_session
              (tile_of_slot 15 15%Z)) as [[Ht _]|(Ht & Hm & _)].
  - apply (reachable_inv _ one_slide_reachable).
  - vm_compute. reflexivity.
  - exfalso. revert Ht. vm_compute. discriminate.
  - split; [exact Ht|exact Hm].
Defined.

(** A move away from the solved board. *)
Lemma hasWon_empty_corner ts e :
  hasWon ts = true → e ∈ ts → value e = EMPTY_TILE_VALUE →
  position e = {| row := 3%Z; col := 3%Z |}.
Proof.
  intros Hw He Hev. unfold hasWon in Hw. rewrite forallb_forall in Hw.
  specialize (Hw e). rewrite <- list_elem_of_In in Hw. specialize (Hw He).
  unfold tile_in_place in Hw. rewrite Hev, Z.eqb_refl in Hw.
  apply andb_true_iff in Hw as [Hr Hc]. apply Z.eqb_eq in Hr, Hc.
  destruct (position e) as [r c0]. simpl in *. by rewrite Hr, Hc.
Qed.

Lemma solved_board_move (s : Session) (clickedTile : Tile) :
  board_inv (tiles s) → clickedTile ∈ tiles s →
  hasWon (tiles s) = true →
  tiles (handleTileClick s clickedTile) ≠ tiles s →
  hasWon (tiles (handleTileClick s clickedTile)) = false.
Proof.
  intros Hinv Hc Hw Hne.
  destruct (handleTileClick_cases s clickedTile)
    as [Heq|(e & Hnw & He & Hadj & Heq)]; rewrite Heq in *; [done|].
  simpl in *. apply (board_findEmptyTile _ Hinv) in He as [He Hev].
  pose proof (hasWon_empty_corner _ _ Hw He Hev) as Hpe.
  apply not_true_is_false. intros Hw'.
  assert (He' : move_tile clickedTile e e ∈ map (move_tile clickedTile e) (tiles s))
    by (by apply list_elem_of_fmap_2).
  pose proof (hasWon_empty_corner _ _ Hw' He') as Hp.
  rewrite move_tile_keeps_value in Hp. specialize (Hp Hev).
  rewrite (move_tile_board _ Hinv _ _ Hc He Hev e He) in Hp.
  pose proof (clicked_position_ne _ _ Hadj) as Hcp.
  rewrite decide_False, decide_True in Hp by (done || (intros ->; done)).
  simpl in Hp. congruence.
Qed.

(** X5. The flag is only ever set by a move that solves the board.  If an
    event takes a mounted component from not won to won, the event is a
    click on a tile of the board, the click changed the board and added one
    to the move count, the board before was not solved and the board after
    is. *)
Theorem win_only_by_a_move (s s' : Session) (e : Event) :
  reachable s → dispatch s e = Some s' →
  isWon s = false → isWon s' = true →
  ∃ clickedTile,
    e = EvClick clickedTile
    ∧ clickedTile ∈ tiles s
    ∧ tiles s' = tiles (handleTileClick s clickedTile)
    ∧ tiles s' ≠ tiles s
    ∧ moveCount s' = (moveCount s + 1)%Z
    ∧ hasWon (tiles s) = false
    ∧ hasWon (tiles s') = true.
Proof.
  intros Hs H Hw Hw'. pose proof (reachable_inv s Hs) as Hinv.
  destruct e as [fuel rnd|c| |]; simpl in H.
  - destruct (initializeGame fuel rnd 0) as [[s1 k1]|] eqn:E; [|done].
    injection H as <-. apply initializeGame_Some in E as (values & _ & _ & _ & ->).
    unfold winCheckEffect in Hw'. simpl in Hw'. rewrite andb_false_r in Hw'.
    by destruct (length _ =? 0).
  - destruct (bool_decide (c ∈ tiles s)) eqn:Hc; [|done].
    apply bool_decide_eq_true in Hc.
    destruct (negb _); [|done]. simpl in H. injection H as <-.
    destruct Hinv as (Hb & Hwon & Hset).
    destruct (click_outcome s c Hb Hc)
      as [[_ Heq]|(Hne & Hm & _)].
    + rewrite Heq in Hw'. rewrite winCheckEffect_fixed in Hw'; [congruence|].
      split; [done|]. split; done.
    + exists c. rewrite winCheckEffect_tiles, winCheckEffect_moveCount.
      split; [done|]. split; [done|]. split; [done|]. split; [done|].
      split; [done|].
      assert (Hh' : hasWon (tiles (handleTileClick s c)) = true).
      { unfold winCheckEffect in Hw'.
        destruct (length _ =? 0); [destruct (handleTileClick_cases s c)
          as [Hq|(? & ? & ? & ? & Hq)]; rewrite Hq in Hw'; simpl in Hw'; congruence|].
        destruct (hasWon (tiles (handleTileClick s c))); [done|].
        simpl in Hw'.
        destruct (handleTileClick_cases s c)
          as [Hq|(? & ? & ? & ? & Hq)]; rewrite Hq in Hw'; simpl in Hw'; congruence. }
      split; [|done].
      destruct (hasWon (tiles s)) eqn:Hh; [|done].
      rewrite (solved_board_move s c Hb Hc Hh Hne) in Hh'. done.
  - injection H as <-. unfold winCheckEffect in Hw'. simpl in Hw'.
    rewrite andb_false_r in Hw'. by destruct (length _ =? 0).
  - injection H as <-. unfold timerTick in Hw'.
    destruct (_ && _); simpl in Hw'; congruence.
Qed.

Lemma win_only_by_a_move_witness :
  ∃ clickedTile,
    EvClick (tile_of_slot 15 15%Z) = EvClick clickedTile
    ∧ clickedTile ∈ tiles one_slide_session
    ∧ tiles won_session = tiles (handleTileClick one_slide_session clickedTile)
    ∧ tiles won_session ≠ tiles one_slide_session
    ∧ moveCount won_session = (moveCount one_slide_session + 1)%Z
    ∧ hasWon (tiles one_slide_session) = false
    ∧ hasWon (tiles won_session) = true.
Proof.
  apply (win_only_by_a_move one_slide_session won_session
           (EvClick (tile_of_slot 15 15%Z)) one_slide_reachable).
  - vm_compute. reflexivity.
  - reflexivity.
  - reflexivity.
Defined.

Lemma filter_fmap_length {A B} (f : A → B) (P : B → Prop)
    `{∀ y, Decision (P y)} (l : list A) :
  length (filter P (f <$> l)) = length (filter (fun x => P (f x)) l).
Proof.
  induction l as [|x l IH]; [done|].
  rewrite fmap_cons, !filter_cons. case_decide; simpl; by rewrite IH.
Qed.

Lemma neighbours_of_a_cell (i : nat) :
  i < 16 →
  2 ≤ length (filter (fun p => isAdjacent p (cell_of_index (Z.of_nat i)) = true)
                     all_cells) ≤ 4.
Proof.
  intros Hi.
  do 16 (destruct i as [|i]; [vm_compute; lia|]). lia.
Qed.

Lemma movable_tiles_length (ts : list Tile) :
  board_inv ts → 2 ≤ length (movable_tiles ts) ≤ 4.
Proof.
  intros Hinv. unfold movable_tiles.
  destruct (board_has_empty _ Hinv) as [e He]. rewrite He.
  apply (board_findEmptyTile _ Hinv) in He as [He _].
  destruct (board_cell_index _ Hinv e He) as (i & Hi & ->).
  pose proof (filter_fmap_length position
                (fun p => isAdjacent p (cell_of_index (Z.of_nat i)) = true) ts)
    as Hlen.
  simpl in Hlen. rewrite <- Hlen.
  destruct Hinv as [-> _]. by apply neighbours_of_a_cell.
Qed.

(** X6. On every board between two and four tiles are next to the empty
    cell, and in a session that is not won these are exactly the tiles whose
    click changes the board: the player is never left without a move. *)
Theorem two_to_four_legal_moves (s : Session) :
  board_inv (tiles s) →
  2 ≤ length (movable_tiles (tiles s)) ≤ 4
  ∧ (isWon s = false →
     ∀ clickedTile, clickedTile ∈ tiles s →
       clickedTile ∈ movable_tiles (tiles s)
       ↔ tiles (handleTileClick s clickedTile) ≠ tiles s).
Proof.
  intros Hinv. split; [by apply movable_tiles_length|].
  intros Hw c Hc. unfold movable_tiles.
  destruct (board_has_empty _ Hinv) as [e He]. rewrite He.
  rewrite list_elem_of_filter.
  pose proof He as He'. apply (board_findEmptyTile _ Hinv) in He' as [Hin Hev].
  split.
  - intros [Hadj _]. rewrite (handleTileClick_moves s c e Hw He Hadj). simpl.
    by apply moved_tiles_differ.
  - intros Hne. split; [|done].
    destruct (isAdjacent (position c) (position e)) eqn:Hadj; [done|].
    exfalso. apply Hne. unfold handleTileClick. by rewrite Hw, He, Hadj.
Qed.

Lemma two_to_four_legal_moves_witness :
  2 ≤ length (movable_tiles (tiles solved_session)) ≤ 4.
Proof. apply (two_to_four_legal_moves solved_session solved_board_inv). Defined.

Lemma solved_values_lookup (i : nat) :
  i < 16 →
  solved_values !! i = Some (if decide (i = 15) then 0%Z else (Z.of_nat i + 1)%Z).
Proof.
  intros Hi. do 16 (destruct i as [|i]; [reflexivity|]). lia.
Qed.

Lemma canonical_cell (i : nat) (v : Z) :
  i < 16 → (0 <= v < 16)%Z →
  cell_of_index (Z.of_nat i) = canonical_position v
  ↔ v = (if decide (i = 15) then 0%Z else (Z.of_nat i + 1)%Z).
Proof.
  intros Hi Hv. unfold cell_of_index, canonical_position, GRID_SIZE.
  destruct (decide (v = 0%Z)) as [->|Hv0]; destruct (decide (i = 15)) as [->|Hi15].
  - done.
  - split; [|lia]. intros [= Hr Hc]. Z.div_mod_to_equations. lia.
  - split; [|lia]. intros [= Hr Hc]. Z.div_mod_to_equations. lia.
  - split.
    + intros [= Hr Hc]. Z.div_mod_to_equations. lia.
    + intros ->. f_equal; f_equal; lia.
Qed.

(** X7. The win check accepts one board only: on a board, [hasWon] holds
    exactly when the row-major sequence of the values is 1, 2, ..., 15, 0,
    and that arrangement is one [isSolvable] accepts. *)
Theorem hasWon_only_solved_board (ts : list Tile) :
  board_inv ts →
  (hasWon ts = true ↔ linearValues ts = solved_values)
  ∧ (hasWon ts = true → isSolvable (linearValues ts) = true).
Proof.
  intros Hinv.
  assert (Hrange : ∀ t, t ∈ ts → (0 <= value t < 16)%Z)
    by (intros t Ht; apply (board_value_range _ Hinv t Ht)).
  assert (Hplace : ∀ t i, t ∈ ts → i < 16 →
            position t = cell_of_index (Z.of_nat i) →
            tile_in_place t = true ↔ solved_values !! i = Some (value t)).
  { intros t i Ht Hi Hp.
    rewrite tile_in_place_spec by (specialize (Hrange t Ht); lia).
    unfold in_canonical_place. rewrite Hp, (solved_values_lookup i Hi).
    rewrite (canonical_cell i (value t) Hi (Hrange t Ht)).
    split; [by intros -> | by intros [= ->]]. }
  assert (Hiff : hasWon ts = true ↔ linearValues ts = solved_values).
  { split.
    - intros Hw. unfold hasWon in Hw. rewrite forallb_forall in Hw.
      apply list_eq. intros i. destruct (decide (i < 16)) as [Hi|Hi].
      + destruct (board_cell_occupied _ Hinv i Hi) as (t & Ht & Hp).
        rewrite (linearValues_tile _ Hinv t i Ht Hp Hi). symmetry.
        apply (Hplace t i Ht Hi Hp). by apply Hw, list_elem_of_In.
      + rewrite !lookup_ge_None_2; [done|simpl; lia|].
        rewrite linearValues_length. lia.
    - intros Hl. unfold hasWon. rewrite forallb_forall.
      intros t Ht%list_elem_of_In.
      destruct (board_cell_index _ Hinv t Ht) as (i & Hi & Hp).
      apply (Hplace t i Ht Hi Hp). rewrite <- Hl.
      by apply linearValues_tile. }
  split; [exact Hiff|].
  intros Hw. apply Hiff in Hw. rewrite Hw. reflexivity.
Qed.

Lemma hasWon_only_solved_board_witness :
  hasWon (tiles solved_session) = true
  ↔ linearValues (tiles solved_session) = solved_values.
Proof. apply (hasWon_only_solved_board (tiles solved_session) solved_board_inv). Defined.

Lemma indexOf_from_app_ext (x : Z) (l1 l2 l2' : list Z) :
  (∀ i, indexOf_from l2 x i = indexOf_from l2' x i) →
  ∀ i, indexOf_from (l1 ++ l2) x i = indexOf_from (l1 ++ l2') x i.
Proof.
  intros H. induction l1 as [|v l1 IH]; intros i; simpl; [apply H|].
  destruct (v =? x)%Z; [done|apply IH].
Qed.

Lemma indexOf_from_cons_ne (x u v : Z) (l l' : list Z) :
  u ≠ x → v ≠ x →
  (∀ i, indexOf_from l x i = indexOf_from l' x i) →
  ∀ i, indexOf_from (u :: l) x i = indexOf_from (v :: l') x i.
Proof.
  intros Hu Hv H i. simpl.
  destruct (Z.eqb_spec u x); [done|]. destruct (Z.eqb_spec v x); [done|]. apply H.
Qed.

Lemma inv_rec_transpose (P M Q : list Z) (x y : Z) :
  x ∉ M → y ∉ M → x ≠ y →
  Z.odd (Z.of_nat (inv_rec (P ++ y :: M ++ x :: Q)))
  = negb (Z.odd (Z.of_nat (inv_rec (P ++ x :: M ++ y :: Q)))).
Proof.
  intros Hx Hy Hxy.
  assert (HyxM : y ∉ x :: M) by (apply not_elem_of_cons; split; [congruence|done]).
  pose proof (inv_rec_slide P y (x :: M) Q HyxM) as H1.
  pose proof (inv_rec_slide (P ++ [y]) x M Q Hx) as H2.
  rewrite <- !app_assoc in H2. cbn [app] in H1, H2.
  rewrite H1 in H2. clear H1.
  assert (E : Z.odd (Z.of_nat (length (x :: M)))
              = negb (Z.odd (Z.of_nat (length M)))).
  { cbn [length]. rewrite Nat2Z.inj_succ, Z.odd_succ. symmetry. apply Z.negb_odd. }
  rewrite E in H2. revert H2.
  generalize (Z.odd (Z.of_nat (inv_rec (P ++ y :: M ++ x :: Q)))).
  generalize (Z.odd (Z.of_nat (length M))).
  generalize (Z.odd (Z.of_nat (inv_rec (P ++ x :: M ++ y :: Q)))).
  by intros [] [] [].
Qed.

(** X8. Exchanging two numbered tiles flips the answer of [isSolvable]: for
    an arrangement of 16 distinct values and two indices that both hold a
    value other than the empty one, the arrangement with the two entries
    exchanged is accepted exactly when the original is rejected. *)
Theorem exchange_flips_isSolvable (L : list Z) (a b : nat) (x y : Z) :
  NoDup L → length L = 16 → a < b →
  L !! a = Some x → L !! b = Some y →
  x ≠ EMPTY_TILE_VALUE → y ≠ EMPTY_TILE_VALUE →
  isSolvable (<[b := x]> (<[a := y]> L)) = negb (isSolvable L).
Proof.
  intros Hnd Hlen Hab Ha Hb Hx0 Hy0. unfold EMPTY_TILE_VALUE in *.
  rewrite !isSolvable_xor by (by rewrite ?length_insert).
  destruct (swap_decompose L a b x y Hab Ha Hb) as (A & M & B & -> & _ & _ & ->).
  apply NoDup_app in Hnd as (_ & _ & Hnd).
  apply NoDup_cons in Hnd as (Hx & Hnd).
  apply NoDup_app in Hnd as (_ & HMyB & _).
  assert (HxM : x ∉ M) by (intros ?; apply Hx, elem_of_app; by left).
  assert (HyM : y ∉ M) by (intros ?; eapply HMyB; [done|by left]).
  assert (Hxy : x ≠ y) by (intros ->; apply Hx, elem_of_app; right; by left).
  assert (Hrow : emptyRowFromBottom (A ++ y :: M ++ x :: B)
                 = emptyRowFromBottom (A ++ x :: M ++ y :: B)).
  { unfold emptyRowFromBottom, indexOf, EMPTY_TILE_VALUE. do 2 f_equal.
    apply indexOf_from_app_ext. apply indexOf_from_cons_ne; [done|done|].
    apply indexOf_from_app_ext. by apply indexOf_from_cons_ne. }
  rewrite Hrow, !count_inversions_rec.
  rewrite !valuesWithoutEmpty_app, !valuesWithoutEmpty_cons.
  rewrite !valuesWithoutEmpty_app, !valuesWithoutEmpty_cons.
  rewrite !decide_False by done.
  assert (HxfM : x ∉ valuesWithoutEmpty M)
    by (intros [_ ?]%list_elem_of_filter; done).
  assert (HyfM : y ∉ valuesWithoutEmpty M)
    by (intros [_ ?]%list_elem_of_filter; done).
  rewrite (inv_rec_transpose _ _ _ x y HxfM HyfM Hxy).
  generalize (Z.odd (emptyRowFromBottom (A ++ x :: M ++ y :: B))).
  generalize (Z.odd (Z.of_nat (inv_rec (valuesWithoutEmpty A ++ x
                :: valuesWithoutEmpty M ++ y :: valuesWithoutEmpty B)))).
  by intros [] [].
Qed.

Lemma exchange_flips_isSolvable_witness :
  isSolvable (<[1 := 1%Z]> (<[0 := 2%Z]> solved_values))
  = negb (isSolvable solved_values).
Proof.
  apply (exchange_flips_isSolvable solved_values 0 1 1%Z 2%Z).
  - apply (bool_decide_unpack _). vm_compute. exact I.
  - reflexivity.
  - lia.
  - reflexivity.
  - reflexivity.
  - discriminate.
  - discriminate.
Defined.

Lemma shuffle_loop_ext (rnd rnd' : nat → Q) (i : nat) : ∀ k array,
  (∀ m, k ≤ m → rnd m = rnd' m) →
  shuffle_loop rnd k array i = shuffle_loop rnd' k array i.
Proof.
  induction i as [|i IH]; intros k array H; [done|].
  simpl. rewrite (H k) by lia. apply IH. intros m Hm. apply H. lia.
Qed.

Lemma swap_step_same (array : list Z) (i : nat) :
  swap_step array i (Z.of_nat i) = array.
Proof.
  unfold swap_step. rewrite Nat2Z.id.
  destruct (array !! i) as [ai|] eqn:Hi; [|done].
  destruct (Z.leb_spec 0 (Z.of_nat i)); [|done].
  rewrite list_insert_insert_eq. by apply list_insert_id.
Qed.

Lemma swap_step_prefix (pa s : list Z) (i j : nat) (v w : Z) :
  j < i → length pa = S i →
  pa !! j = Some v → pa !! i = Some w →
  ∃ pa', swap_step (pa ++ s) i (Z.of_nat j) = pa' ++ v :: s
         ∧ length pa' = i ∧ pa' ++ [v] ≡ₚ pa.
Proof.
  intros Hji Hlen Hj Hi.
  destruct (swap_decompose pa j i v w Hji Hj Hi) as (A & M & B & HL & HA & HM & Hsw).
  assert (B = []) as ->.
  { apply (f_equal length) in HL. rewrite Hlen, !length_app in HL. simpl in HL.
    rewrite length_app in HL. simpl in HL. destruct B; [done|simpl in HL; lia]. }
  exists (A ++ w :: M). split; [|split].
  - unfold swap_step. rewrite Nat2Z.id.
    rewrite (lookup_app_l pa s j), (lookup_app_l pa s i) by lia. rewrite Hj, Hi.
    destruct (Z.leb_spec 0 (Z.of_nat j)); [|lia].
    rewrite list_insert_insert_ne by lia.
    rewrite !insert_app_l by (rewrite ?length_insert; lia).
    rewrite Hsw. rewrite <- !app_assoc. simpl. by rewrite <- !app_assoc.
  - rewrite length_app. simpl. lia.
  - rewrite HL. rewrite <- !app_assoc. simpl.
    apply Permutation_app_head.
    rewrite <- (Permutation_cons_append M v), <- (Permutation_cons_append M w).
    apply perm_swap.
Qed.

Lemma shuffle_loop_reaches (i : nat) : ∀ k pa pt s,
  length pa = S i → (Z.of_nat (S i) <= 2 ^ 26)%Z → pa ≡ₚ pt →
  ∃ rnd, unit_draws rnd ∧ double_draws rnd
         ∧ (shuffle_loop rnd k (pa ++ s) i).1 = pt ++ s.
Proof.
  induction i as [|i IH]; intros k pa pt s Hlen Hbound Hp.
  - exists (fun _ => 0%Q). split; [apply zero_draws_unit|].
    split; [apply zero_draws_double|].
    simpl. destruct pa as [|x [|? ?]]; try done.
    apply Permutation_singleton_l in Hp. by rewrite Hp.
  - assert (Hlt : length pt = S (S i)) by (by rewrite <- Hp).
    destruct pt as [|v pt' _] using rev_ind; [done|].
    rewrite length_app in Hlt. simpl in Hlt.
    assert (Hv : v ∈ pa).
    { rewrite Hp. apply elem_of_app. right. by left. }
    apply list_elem_of_lookup in Hv as [j Hj].
    pose proof (lookup_lt_Some _ _ _ Hj) as Hjlt.
    destruct (lookup_lt_is_Some_2 pa (S i) ltac:(lia)) as [w Hw].
    assert (Hnext : ∃ pa', swap_step (pa ++ s) (S i) (Z.of_nat j) = pa' ++ v :: s
                           ∧ length pa' = S i ∧ pa' ++ [v] ≡ₚ pa).
    { destruct (decide (j = S i)) as [->|Hne].
      - rewrite swap_step_same.
        destruct pa as [|w' pa' _] using rev_ind; [done|].
        rewrite length_app in Hlen. simpl in Hlen.
        rewrite lookup_app_r in Hj by lia.
        replace (S i - length pa') with 0 in Hj by lia. injection Hj as ->.
        exists pa'. rewrite <- app_assoc. split; [done|]. split; [lia|done].
      - apply (swap_step_prefix pa s (S i) j v w); [lia|done|done|done]. }
    destruct Hnext as (pa' & Hsw & Hlen' & Hp').
    assert (Hpp : pa' ≡ₚ pt').
    { apply (Permutation_app_inv_r [v]). by rewrite Hp'. }
    destruct (IH (S k) pa' pt' (v :: s) Hlen' ltac:(lia) Hpp)
      as (rnd' & Hunit & Hdbl & Hrun).
    exists (fun m => if decide (m = k) then draw_for (S i) j else rnd' m).
    split; [|split].
    + intros m. case_decide; [apply draw_for_unit; lia|apply Hunit].
    + intros m. case_decide; [apply draw_for_double; lia|apply Hdbl].
    + cbn [shuffle_loop]. rewrite decide_True by done.
      rewrite random_index_draw_for by lia. rewrite Hsw.
      rewrite (shuffle_loop_ext _ rnd').
      * rewrite Hrun. by rewrite <- app_assoc.
      * intros m Hm. by rewrite decide_False by lia.
Qed.

(** X9. The shuffle reaches every arrangement: for every rearrangement of
    an array of no more than [2 ^ 26] entries there are draws, binary64
    numbers of [0, 1), on which [shuffleArray] leaves exactly that
    rearrangement. *)
Theorem shuffleArray_reaches_every_arrangement (array target : list Z) (k : nat) :
  array ≡ₚ target → (Z.of_nat (length array) <= 2 ^ 26)%Z →
  ∃ rnd, unit_draws rnd ∧ double_draws rnd
         ∧ (shuffleArray rnd k array).1 = target.
Proof.
  intros Hp Hbound. unfold shuffleArray.
  destruct array as [|x array].
  - apply Permutation_nil_l in Hp. subst target. exists (fun _ => 0%Q).
    split; [apply zero_draws_unit|]. split; [apply zero_draws_double|reflexivity].
  - destruct (shuffle_loop_reaches (length array) k (x :: array) target [])
      as (rnd & Hunit & Hdbl & Hrun); [done|done|done|].
    exists rnd. split; [done|]. split; [done|]. rewrite !app_nil_r in Hrun.
    cbn [length]. by rewrite Nat.sub_1_r.
Qed.

Lemma shuffleArray_reaches_every_arrangement_witness :
  ∃ rnd, unit_draws rnd ∧ double_draws rnd
         ∧ (shuffleArray rnd 0 [1; 2; 3]%Z).1 = [3; 1; 2]%Z.
Proof.
  apply (shuffleArray_reaches_every_arrangement [1; 2; 3]%Z [3; 1; 2]%Z 0).
  - symmetry. apply (Permutation_cons_append [1; 2]%Z 3%Z).
  - simpl. lia.
Defined.

(** X10. Every solvable arrangement can be dealt: for every arrangement of
    0, ..., 15 that [isSolvable] accepts there are draws, binary64 numbers
    of [0, 1), on which [initializeGame] returns, after a single round of
    its loop, the fresh session whose board has that row-major sequence. *)
Theorem initializeGame_deals_every_solvable_board (values : list Z) :
  values ≡ₚ initial_values → isSolvable values = true →
  ∃ rnd k, unit_draws rnd ∧ double_draws rnd
    ∧ initializeGame 1 rnd 0
      = Some ({| tiles := build_tiles values; isWon := false; moveCount := 0%Z;
                 time := 0%Z; isRunning := true |}, k)
    ∧ linearValues (build_tiles values) = values.
Proof.
  intros Hp Hs.
  destruct (shuffle_loop_reaches 15 0 initial_values values [])
    as (rnd & Hunit & Hdbl & Hrun); [done|simpl; lia|by symmetry|].
  rewrite !app_nil_r in Hrun.
  exists rnd, (shuffleArray rnd 0 initial_values).2.
  split; [done|]. split; [done|]. split.
  - unfold initializeGame. cbn [shuffle_until_solvable].
    change (shuffle_loop rnd 0 initial_values 15)
      with (shuffleArray rnd 0 initial_values) in Hrun.
    destruct (shuffleArray rnd 0 initial_values) as [out k'] eqn:E.
    simpl in Hrun. subst out. by rewrite Hs.
  - apply build_tiles_linear. by rewrite (Permutation_length Hp).
Qed.

Lemma initializeGame_deals_every_solvable_board_witness :
  ∃ rnd k, unit_draws rnd ∧ double_draws rnd
    ∧ initializeGame 1 rnd 0 = Some (one_slide_session, k)
    ∧ linearValues (tiles one_slide_session)
      = [1;2;3;4;5;6;7;8;9;10;11;12;13;14;0;15]%Z.
Proof.
  apply (initializeGame_deals_every_solvable_board
           [1;2;3;4;5;6;7;8;9;10;11;12;13;14;0;15]%Z).
  - change initial_values with (0 :: [1;2;3;4;5;6;7;8;9;10;11;12;13;14] ++ [15])%Z.
    change [1;2;3;4;5;6;7;8;9;10;11;12;13;14;0;15]%Z
      with ([1;2;3;4;5;6;7;8;9;10;11;12;13;14] ++ [0; 15])%Z.
    symmetry. apply Permutation_middle.
  - reflexivity.
Defined.

Example formatTime_examples :
  formatTime 0 = "00:00"%string ∧ formatTime 75 = "01:15"%string
  ∧ formatTime 3599 = "59:59"%string ∧ formatTime 6000 = "100:00"%string.
Proof. repeat split; vm_compute; reflexivity. Qed.

Lemma string_length_append (s1 s2 : string) :
  String.length (String.append s1 s2) = String.length s1 + String.length s2.
Proof. induction s1 as [|c s1 IH]; simpl; [done|by rewrite IH]. Qed.

Lemma string_append_inj_suffix (s1 s2 t1 t2 : string) :
  String.length t1 = String.length t2 →
  String.append s1 t1 = String.append s2 t2 → s1 = s2 ∧ t1 = t2.
Proof.
  intros Hlen. revert s2. induction s1 as [|c s1 IH]; intros [|d s2] H; simpl in H.
  - done.
  - apply (f_equal String.length) in H. simpl in H.
    rewrite !string_length_append in H. simpl in H. lia.
  - apply (f_equal String.length) in H. simpl in H.
    rewrite !string_length_append in H. simpl in H. lia.
  - injection H as -> H. destruct (IH s2 H) as [-> ->]. done.
Qed.

Lemma pretty_N_go_length_ge (x : N) : ∀ s,
  String.length s ≤ String.length (pretty_N_go x s).
Proof.
  induction (N.lt_wf_0 x) as [x _ IH]; intros s.
  assert (x = 0 ∨ 0 < x)%N as [->|?] by lia; [by rewrite pretty_N_go_0|].
  rewrite pretty_N_go_step by done.
  etrans; [|by eapply IH, N.div_lt]. simpl. lia.
Qed.

Lemma pretty_N_go_length_pow (n : nat) : ∀ x s,
  (10 ^ N.of_nat n <= x)%N →
  S n + String.length s ≤ String.length (pretty_N_go x s).
Proof.
  induction n as [|n IH]; intros x s Hx.
  - simpl in Hx. rewrite pretty_N_go_step by lia.
    etrans; [|apply pretty_N_go_length_ge]. simpl. lia.
  - assert (0 < x)%N.
    { pose proof (N.pow_nonzero 10 (N.of_nat (S n))). lia. }
    rewrite pretty_N_go_step by done.
    etrans; [|apply IH]; [simpl; lia|].
    rewrite Nat2N.inj_succ, N.pow_succ_r' in Hx.
    apply N.div_le_lower_bound; lia.
Qed.

Lemma toString_length_pow (n : nat) (z : Z) :
  (10 ^ Z.of_nat n <= z)%Z → S n ≤ String.length (toString z).
Proof.
  intros Hz. assert (0 < z)%Z by (pose proof (Z.pow_pos_nonneg 10 (Z.of_nat n)); lia).
  destruct z as [|p|p]; try lia.
  unfold toString, pretty, pretty_Z, pretty, pretty_positive, pretty, pretty_N.
  rewrite decide_False by done.
  pose proof (pretty_N_go_length_pow n (N.pos p) EmptyString) as H'.
  simpl in H'. rewrite Nat.add_0_r in H'. apply H'.
  apply N2Z.inj_le. rewrite N2Z.inj_pow. simpl. rewrite nat_N_Z. exact Hz.
Qed.

Lemma padStart_long (s pad : string) (n : nat) :
  n ≤ String.length s → padStart s n pad = s.
Proof.
  intros H. unfold padStart. by rewrite (proj2 (Nat.leb_le _ _) H).
Qed.

Lemma padStart_two_digits (n : Z) :
  (0 <= n < 100)%Z → padStart (toString n) 2 "0" = two_digits n.
Proof.
  intros Hn.
  assert (H : Forall (fun m => padStart (toString m) 2 "0" = two_digits m)
                     (seqZ 0 100)).
  { apply (bool_decide_unpack _). vm_compute. exact I. }
  rewrite Forall_forall in H. apply H, elem_of_seqZ. lia.
Qed.

Lemma two_digits_inj (m n : Z) :
  (0 <= m < 100)%Z → (0 <= n < 100)%Z → two_digits m = two_digits n → m = n.
Proof.
  intros Hm Hn [= H1 H2].
  apply pretty_N_char_inj in H1, H2;
    try (apply N2Z.inj_lt; rewrite Z2N.id; [|Z.div_mod_to_equations; lia];
         simpl; Z.div_mod_to_equations; lia).
  apply Z2N.inj in H1, H2; Z.div_mod_to_equations; lia.
Qed.

Lemma formatTime_unfold (seconds : Z) :
  (0 <= seconds)%Z →
  formatTime seconds
  = String.append
      (if (seconds <? 6000)%Z then two_digits (seconds / 60)
       else toString (seconds / 60))
      (String.append ":" (two_digits (seconds mod 60))).
Proof.
  intros Hs. unfold formatTime. rewrite Z.rem_mod_nonneg by lia.
  rewrite (padStart_two_digits (seconds mod 60))
    by (Z.div_mod_to_equations; lia).
  f_equal. destruct (Z.ltb_spec seconds 6000).
  - apply padStart_two_digits. Z.div_mod_to_equations. lia.
  - apply padStart_long. apply (toString_length_pow 1).
    change (10 ^ Z.of_nat 1)%Z with 10%Z. Z.div_mod_to_equations. lia.
Qed.

(** X11. The shape of the displayed time.  For a whole number of seconds,
    not negative and exactly held by a number, [formatTime] gives the minutes, a colon and the two digits
    of the seconds modulo 60; the minutes take two digits below 100 minutes
    and are printed in full, on three digits or more, from 100 minutes on.
    So the text has five characters exactly when the time is below 6000
    seconds, and more beyond. *)
Theorem formatTime_shape (seconds : Z) :
  (0 <= seconds <= MAX_SAFE_INTEGER)%Z →
  formatTime seconds
  = String.append
      (if (seconds <? 6000)%Z then two_digits (seconds / 60)
       else toString (seconds / 60))
      (String.append ":" (two_digits (seconds mod 60)))
  ∧ 5 ≤ String.length (formatTime seconds)
  ∧ (String.length (formatTime seconds) = 5 ↔ (seconds < 6000)%Z).
Proof.
  intros [Hs _]. split; [by apply formatTime_unfold|].
  rewrite (formatTime_unfold seconds Hs), !string_length_append.
  destruct (Z.ltb_spec seconds 6000) as [Hlt|Hge].
  - simpl. split; [lia|]. split; [done|lia].
  - pose proof (toString_length_pow 2 (seconds / 60)) as Hlen.
    change (10 ^ Z.of_nat 2)%Z with 100%Z in Hlen.
    specialize (Hlen ltac:(Z.div_mod_to_equations; lia)).
    simpl. split; [lia|]. split; lia.
Qed.

Lemma formatTime_shape_witness :
  String.length (formatTime 754) = 5 ↔ (754 < 6000)%Z.
Proof. apply (formatTime_shape 754). unfold MAX_SAFE_INTEGER. lia. Defined.

(** X12. The displayed time determines the elapsed seconds: two whole
    numbers of seconds, not negative and exactly held by a number, that
    [formatTime] prints alike are equal. *)
Theorem formatTime_inj (a b : Z) :
  (0 <= a <= MAX_SAFE_INTEGER)%Z → (0 <= b <= MAX_SAFE_INTEGER)%Z →
  formatTime a = formatTime b → a = b.
Proof.
  intros [Ha _] [Hb _] H.
  rewrite (formatTime_unfold a Ha), (formatTime_unfold b Hb) in H.
  apply string_append_inj_suffix in H as [Hm Hsec]; [|done].
  injection Hsec as Hsec.
  assert (Hs : (a mod 60 = b mod 60)%Z).
  { apply two_digits_inj; [Z.div_mod_to_equations; lia..|].
    unfold two_digits. by rewrite Hsec, H. }
  assert (Hmin : (a / 60 = b / 60)%Z).
  { destruct (Z.ltb_spec a 6000) as [Hal|Hal], (Z.ltb_spec b 6000) as [Hbl|Hbl].
    - apply two_digits_inj; [Z.div_mod_to_equations; lia..|done].
    - apply (f_equal String.length) in Hm. simpl in Hm.
      pose proof (toString_length_pow 2 (b / 60)) as Hlen.
      change (10 ^ Z.of_nat 2)%Z with 100%Z in Hlen.
      specialize (Hlen ltac:(Z.div_mod_to_equations; lia)). lia.
    - apply (f_equal String.length) in Hm. simpl in Hm.
      pose proof (toString_length_pow 2 (a / 60)) as Hlen.
      change (10 ^ Z.of_nat 2)%Z with 100%Z in Hlen.
      specialize (Hlen ltac:(Z.div_mod_to_equations; lia)). lia.
    - by apply (inj pretty). }
  rewrite (Z.div_mod a 60), (Z.div_mod b 60) by lia. by rewrite Hs, Hmin.
Qed.

Lemma formatTime_inj_witness : 75%Z = (60 + 15)%Z.
Proof.
  apply (formatTime_inj 75 (60 + 15)).
  - unfold MAX_SAFE_INTEGER. lia.
  - unfold MAX_SAFE_INTEGER. lia.
  - vm_compute. reflexivity.
Defined.

Lemma classList_toggle_elem (token u : string) (l : list string) :
  u ∈ classList_toggle token l
  ↔ if decide (u = token) then token ∉ l else u ∈ l.
Proof.
  unfold classList_toggle. case_bool_decide as Hin.
  - rewrite list_elem_of_filter. case_decide as Hu; [subst u; tauto|tauto].
  - rewrite elem_of_app, list_elem_of_singleton.
    case_decide as Hu; [subst u; tauto|tauto].
Qed.

(** X13. The dark-mode flag and the class of the page.  [toggleDarkMode]
    keeps the flag and the presence of the class [dark] on the root element
    in step when they were, and out of step when they were not; two calls
    restore the flag and the tokens of the class list; no other token is
    ever added or removed. *)
Theorem toggleDarkMode_sync (t : Theme) :
  (theme_in_sync (toggleDarkMode t) ↔ theme_in_sync t)
  ∧ isDarkMode (toggleDarkMode (toggleDarkMode t)) = isDarkMode t
  ∧ (∀ token, token ∈ classList (toggleDarkMode (toggleDarkMode t))
              ↔ token ∈ classList t)
  ∧ (∀ token, token ≠ "dark"%string →
       token ∈ classList (toggleDarkMode t) ↔ token ∈ classList t).
Proof.
  split; [|split; [|split]].
  - unfold theme_in_sync, toggleDarkMode. simpl.
    rewrite classList_toggle_elem, decide_True by done.
    destruct (isDarkMode t), (decide ("dark"%string ∈ classList t));
      simpl; intuition congruence.
  - simpl. apply negb_involutive.
  - intros token. simpl. rewrite !classList_toggle_elem.
    destruct (decide ("dark"%string ∈ classList t));
      repeat case_decide; subst; rewrite ?classList_toggle_elem;
      repeat case_decide; subst; tauto.
  - intros token Hne. simpl. by rewrite classList_toggle_elem, decide_False.
Qed.

Lemma filter_fmap_eq {A B} (f : A → B) (P : B → Prop)
    `{∀ y, Decision (P y)} (l : list A) :
  filter P (f <$> l) = f <$> filter (fun x => P (f x)) l.
Proof.
  induction l as [|x l IH]; [done|].
  rewrite fmap_cons, !filter_cons. case_decide; simpl; by rewrite IH.
Qed.

Lemma NoDup_fmap_filter {A B} (f : A → B) (P : A → Prop)
    `{∀ x, Decision (P x)} (l : list A) :
  NoDup (f <$> l) → NoDup (f <$> filter P l).
Proof.
  induction l as [|x l IH]; [done|].
  rewrite fmap_cons, NoDup_cons. intros [Hx Hnd]. rewrite filter_cons.
  case_decide; [|by apply IH].
  rewrite fmap_cons, NoDup_cons. split; [|by apply IH].
  intros (y & Hy & Hin)%list_elem_of_fmap. apply Hx.
  apply list_elem_of_fmap. exists y. split; [done|].
  by apply list_elem_of_filter in Hin as [_ ?].
Qed.

Lemma visible_tiles_filter (ts : list Tile) :
  visible_tiles ts
  = (fun tile => {| key := id tile;
                    animate_x := String.append (toString (col (position tile) * 100)) "%";
                    animate_y := String.append (toString (row (position tile) * 100)) "%";
                    label := value tile;
                    onClick := tile |})
      <$> filter (fun tile => value tile ≠ EMPTY_TILE_VALUE) ts.
Proof.
  unfold visible_tiles. induction ts as [|t ts IH]; [done|].
  cbn [omap list_omap]. rewrite filter_cons. unfold render_tile at 1.
  destruct (Z.eqb_spec (value t) EMPTY_TILE_VALUE).
  - by rewrite decide_False by tauto.
  - rewrite decide_True by done. by rewrite fmap_cons, <- IH.
Qed.

Lemma screen_offset_inj (p q : Position) :
  String.append (toString (col p * 100)) "%" = String.append (toString (col q * 100)) "%" →
  String.append (toString (row p * 100)) "%" = String.append (toString (row q * 100)) "%" →
  p = q.
Proof.
  intros Hx Hy.
  apply string_append_inj_suffix in Hx as [Hx _]; [|done].
  apply string_append_inj_suffix in Hy as [Hy _]; [|done].
  apply (inj pretty) in Hx, Hy.
  destruct p as [pr pc], q as [qr qc]. simpl in *. f_equal; lia.
Qed.

(** X14. The tiles on screen.  In a mounted component the render maps the
    16 tiles to 15 elements and nothing for the empty tile; the elements
    have pairwise distinct React keys and pairwise distinct animation
    targets, they show the numbers 1 to 15, and the click of each of them
    hands a tile of the current board, of that number, to the handler. *)
Theorem visible_tiles_distinct (s : Session) :
  reachable s →
  length (visible_tiles (tiles s)) = 15
  ∧ length (render_tiles (tiles s)) = 16
  ∧ NoDup (key <$> visible_tiles (tiles s))
  ∧ NoDup ((fun v => (animate_x v, animate_y v)) <$> visible_tiles (tiles s))
  ∧ label <$> visible_tiles (tiles s) ≡ₚ seqZ 1 15
  ∧ (∀ v, v ∈ visible_tiles (tiles s) →
       onClick v ∈ tiles s ∧ label v = value (onClick v)
       ∧ is_Some (dispatch s (EvClick (onClick v)))).
Proof.
  intros Hs. pose proof (reachable_inv s Hs) as (Hb & _).
  pose proof (reachable_ids s Hs) as Hid.
  rewrite visible_tiles_filter.
  assert (Hlab : value <$> filter (fun tile => value tile ≠ EMPTY_TILE_VALUE) (tiles s)
                 ≡ₚ seqZ 1 15).
  { pose proof (filter_fmap_eq value (fun v => v ≠ EMPTY_TILE_VALUE) (tiles s)) as E.
    simpl in E. rewrite <- E. destruct Hb as [_ ->]. reflexivity. }
  split; [|split; [|split; [|split; [|split]]]].
  - rewrite length_fmap, <- (length_fmap value), Hlab. reflexivity.
  - unfold render_tiles. rewrite length_map. by apply board_length.
  - rewrite <- list_fmap_compose.
    apply (NoDup_fmap_filter id). rewrite Hid. apply NoDup_seqZ.
  - rewrite <- list_fmap_compose.
    apply NoDup_fmap_2_strong.
    + intros t1 t2 [_ Ht1]%list_elem_of_filter [_ Ht2]%list_elem_of_filter [= Hx Hy].
      apply (board_position_inj _ Hb); [done|done|]. by apply screen_offset_inj.
    + apply NoDup_filter. eapply NoDup_fmap_1, board_NoDup_positions, Hb.
  - by rewrite <- list_fmap_compose.
  - intros v (t & -> & [Hv Ht]%list_elem_of_filter)%list_elem_of_fmap. simpl.
    split; [done|]. split; [done|].
    rewrite bool_decide_eq_true_2 by done.
    destruct (Z.eqb_spec (value t) EMPTY_TILE_VALUE); [done|]. simpl. eauto.
Qed.

Lemma visible_tiles_distinct_witness :
  length (visible_tiles (tiles one_slide_session)) = 15.
Proof. apply (visible_tiles_distinct one_slide_session one_slide_reachable). Defined.
